(** * A shallow embedding of the process scheduler simulator (src/main.cpp)

    The program keeps a ready list [proc_list] (a std::vector<proc_data>)
    and a CPU-slot vector [cpus_state] (a std::vector<int>); every policy
    reorders the ready list in place and fills the slots; the main loop
    reads one input line per tick, runs the policy, charges one time unit to
    every occupied slot and prints the slots.

    - [int] values are modelled as [Z]; [unsigned int] values as [Z] in
      [0, 2^32) with the wrap-around of their arithmetic written out.
    - std::stable_sort is modelled by a stable insertion sort: for a strict
      weak ordering the stable sorted permutation of a sequence is unique,
      so every stable algorithm returns the same sequence.
    - Undefined behaviour of the C++ code (an iterator run past the end of
      a vector, a modulo by zero) and the thrown exception of [main] are
      the errors of a small error monad.
    - An input line is given already tokenised: [Some (t, tuples)] for a
      line "t id prio exec_t ...", [None] for a blank line; the end of the
      input (std::getline then returns an empty line) is the end of the
      list. The character count test [in_avail() / 2 >= 3] of the reading
      loop is taken to read exactly the tuples of the line.
    - The main loop is [run], with fuel; it prints one [record] per tick. *)

From Stdlib Require Import List ZArith Lia Bool Permutation Sorted.
Import ListNotations.
Open Scope Z_scope.

(** ** Data model *)

(** struct proc_data *)
Record proc_data := mk_proc {
  id : Z;                (* int *)
  priority : Z;          (* int *)
  exec_time : Z;         (* unsigned int *)
  remaining_time : Z     (* unsigned int *)
}.

(** Modulus of [unsigned int] arithmetic. *)
Definition UINT_MOD : Z := 2 ^ 32.

(** proc_data::compare_exec_time, compare_priority, compare_remaining_time *)
Definition compare_exec_time (pd1 pd2 : proc_data) : bool :=
  exec_time pd1 <? exec_time pd2.
Definition compare_priority (pd1 pd2 : proc_data) : bool :=
  priority pd1 <? priority pd2.
Definition compare_remaining_time (pd1 pd2 : proc_data) : bool :=
  remaining_time pd1 <? remaining_time pd2.

(** operator>> : reads [id priority exec_time] and sets
    [remaining_time = exec_time]. The tokenisation of the line is not
    modelled: an input tuple is given already parsed. *)
Definition read_proc (t : Z * Z * Z) : proc_data :=
  let '(i, p, e) := t in mk_proc i p e e.

Definition set_remaining (p : proc_data) (r : Z) : proc_data :=
  mk_proc (id p) (priority p) (exec_time p) r.

(** ** std::stable_sort, as a stable insertion sort *)

Section StableSort.
Variable A : Type.
Variable cmp : A -> A -> bool.

(** [x] is put before the first element [y] with [~ cmp y x]: it stays in
    front of the elements equivalent to it, which came after it. *)
Fixpoint insert (x : A) (l : list A) : list A :=
  match l with
  | [] => [x]
  | y :: t => if cmp y x then y :: insert x t else x :: y :: t
  end.

Fixpoint stable_sort (l : list A) : list A :=
  match l with
  | [] => []
  | x :: t => insert x (stable_sort t)
  end.
End StableSort.

Arguments insert {A} cmp x l.
Arguments stable_sort {A} cmp l.

(** ** Error monad: exception thrown by [main], undefined behaviour *)

Inductive error := Invalid_method | Undefined_behaviour.

Inductive res (A : Type) : Type :=
| Ok (a : A)
| Err (e : error).
Arguments Ok {A} a.
Arguments Err {A} e.

Definition bind {A B} (r : res A) (f : A -> res B) : res B :=
  match r with Ok a => f a | Err e => Err e end.

Notation "'let*' x ':=' r 'in' f" := (bind r (fun x => f))
  (at level 200, x name, r at level 100, f at level 200).

(** ** update_cpus_state *)

(** The first loop: slot by slot, the next process id, or -1 once the
    ready list is exhausted. *)
Fixpoint fill_cpus (ps : list proc_data) (cpus : list Z) : list Z :=
  match cpus with
  | [] => []
  | _ :: cs =>
      match ps with
      | [] => -1 :: fill_cpus [] cs
      | p :: ps' => id p :: fill_cpus ps' cs
      end
  end.

(** [(i >= 0 && j >= 0) ? i < j : i > j] *)
Definition cpu_cmp (i j : Z) : bool :=
  if (0 <=? i) && (0 <=? j) then i <? j else j <? i.

Definition update_cpus_state (proc_list : list proc_data) (cpus : list Z)
  : list Z :=
  stable_sort cpu_cmp (fill_cpus proc_list cpus).

(** ** Policies *)

Definition fcfs (L : list proc_data) (cpus : list Z)
  : res (list proc_data * list Z) :=
  Ok (L, update_cpus_state L cpus).

(** Number of elements of [L] with id [c]: one [proc_it++] each. *)
Definition count_id (c : Z) (L : list proc_data) : nat :=
  length (filter (fun p => id p =? c) L).

(** The loop of [sjf] and [prio_fcfs_no_preemption] that moves [proc_it]
    past the executing processes; [k] is [proc_it - proc_list.begin()]. *)
Fixpoint skip_running (L : list proc_data) (cpus : list Z) (k : nat) : nat :=
  match cpus with
  | [] => k
  | c :: cs =>
      if Nat.eqb k (length L) || (c =? -1) then k
      else skip_running L cs (k + count_id c L)
  end.

(** [std::stable_sort(proc_it, proc_list.end(), cmp)]; an iterator moved
    past [end()] is undefined behaviour. *)
Definition sort_after_running (cmp : proc_data -> proc_data -> bool)
  (L : list proc_data) (cpus : list Z) : res (list proc_data) :=
  let k := skip_running L cpus 0 in
  if Nat.leb k (length L)
  then Ok (firstn k L ++ stable_sort cmp (skipn k L))
  else Err Undefined_behaviour.

Definition sjf (L : list proc_data) (cpus : list Z)
  : res (list proc_data * list Z) :=
  let* L' := sort_after_running compare_exec_time L cpus in
  Ok (L', update_cpus_state L' cpus).

Definition srtf (L : list proc_data) (cpus : list Z)
  : res (list proc_data * list Z) :=
  let L' := stable_sort compare_remaining_time L in
  Ok (L', update_cpus_state L' cpus).

(** First element with id [c]: [(before, it, after)]. *)
Fixpoint split_at_id (c : Z) (L : list proc_data)
  : option (list proc_data * proc_data * list proc_data) :=
  match L with
  | [] => None
  | p :: t =>
      if id p =? c then Some ([], p, t)
      else match split_at_id c t with
           | Some (a, q, b) => Some (p :: a, q, b)
           | None => None
           end
  end.

(** The loop of [rr] over the slots. The search
    [while(cpu_state != proc_it->id && proc_it != proc_list.end())]
    evaluates [proc_it->id] before comparing with [end()]: when no process
    has the slot's id ([split_at_id] returns [None]) it dereferences
    [end()], which is undefined behaviour, before the test
    [proc_it == proc_list.end()] that would skip the slot is reached. *)
Fixpoint rr_loop (rr_time : Z) (cpus : list Z) (L : list proc_data)
  : res (list proc_data) :=
  match cpus with
  | [] => Ok L
  | c :: cs =>
      if c =? -1 then Ok L
      else match split_at_id c L with
           | None => Err Undefined_behaviour
           | Some (pre, p, post) =>
               let executed := (exec_time p - remaining_time p) mod UINT_MOD in
               if 0 <? executed then
                 if rr_time =? 0 then Err Undefined_behaviour
                 else if executed mod rr_time =? 0
                      then rr_loop rr_time cs (pre ++ post ++ [p])
                      else rr_loop rr_time cs L
               else rr_loop rr_time cs L
           end
  end.

Definition rr (L : list proc_data) (cpus : list Z) (rr_time : Z)
  : res (list proc_data * list Z) :=
  let* L' := rr_loop rr_time cpus L in
  Ok (L', update_cpus_state L' cpus).

Definition prio_fcfs (L : list proc_data) (cpus : list Z)
  : res (list proc_data * list Z) :=
  let L' := stable_sort compare_priority L in
  Ok (L', update_cpus_state L' cpus).

Definition prio_srtf (L : list proc_data) (cpus : list Z)
  : res (list proc_data * list Z) :=
  let L' := stable_sort compare_priority
              (stable_sort compare_remaining_time L) in
  Ok (L', update_cpus_state L' cpus).

Definition prio_fcfs_no_preemption (L : list proc_data) (cpus : list Z)
  : res (list proc_data * list Z) :=
  let* L' := sort_after_running compare_priority L cpus in
  Ok (L', update_cpus_state L' cpus).

(** The [switch (method)] of [main]. *)
Definition schedule (method rr_time : Z) (L : list proc_data) (cpus : list Z)
  : res (list proc_data * list Z) :=
  match method with
  | 0 => fcfs L cpus
  | 1 => sjf L cpus
  | 2 => srtf L cpus
  | 3 => rr L cpus rr_time
  | 4 => prio_fcfs L cpus
  | 5 => prio_srtf L cpus
  | 6 => prio_fcfs_no_preemption L cpus
  | _ => Err Invalid_method
  end.

(** ** The main loop *)

(** [--(it_proc->remaining_time)] on an unsigned int. *)
Definition dec_uint (r : Z) : Z := (r - 1) mod UINT_MOD.

(** The "update proc_list" loop: for every occupied slot, find the process
    ([while(it_proc->id != id) ++it_proc], undefined behaviour when it runs
    past the end), decrement its remaining time and erase it at zero. *)
Fixpoint update_proc_list (cpus : list Z) (L : list proc_data)
  : res (list proc_data) :=
  match cpus with
  | [] => Ok L
  | c :: cs =>
      if c =? -1 then update_proc_list cs L
      else match split_at_id c L with
           | None => Err Undefined_behaviour
           | Some (pre, p, post) =>
               let r := dec_uint (remaining_time p) in
               if r =? 0 then update_proc_list cs (pre ++ post)
               else update_proc_list cs (pre ++ set_remaining p r :: post)
           end
  end.

Definition all_cpus_sleeping (cpus : list Z) : bool :=
  if existsb (fun i => negb (i =? -1)) cpus then false else true.

(** One input line: [None] is a blank line (std::getline also gives an
    empty line at the end of the input); [Some (t, tuples)] is a line
    "t id prio exec_t id prio exec_t ...". *)
Definition line := option (Z * list (Z * Z * Z)).

Record config := mk_config {
  method : Z;        (* arg1 *)
  cpu_count : nat;   (* arg2 *)
  rr_time : Z        (* arg3 *)
}.

Record state := mk_state {
  proc_list : list proc_data;
  cpus_state : list Z;
  time : Z;
  read : bool;
  input : list line
}.

(** [std::vector<int> cpus_state(cpu_count)] is zero-initialised. *)
Definition init_state (cfg : config) (inp : list line) : state :=
  mk_state [] (repeat 0 (cpu_count cfg)) 0 true inp.

(** The "read input" block: the new ready list, the time, the [read] flag
    and the rest of the input. [ss >> time] overwrites the time. *)
Definition read_input (st : state)
  : list proc_data * Z * bool * list line :=
  if read st then
    match input st with
    | [] => (proc_list st, time st, false, [])
    | None :: rest => (proc_list st, time st, false, rest)
    | Some (t, tuples) :: rest =>
        (proc_list st ++ map read_proc tuples, t, true, rest)
    end
  else (proc_list st, time st, false, input st).

(** A printed line: the time and the slots. *)
Definition record := (Z * list Z)%type.

(** One iteration of the [while] body. *)
Definition tick (cfg : config) (st : state) : res (record * state) :=
  let '(L0, t, rd, rest) := read_input st in
  match schedule (method cfg) (rr_time cfg) L0 (cpus_state st) with
  | Err e => Err e
  | Ok (L1, cpus) =>
      match update_proc_list cpus L1 with
      | Err e => Err e
      | Ok L2 => Ok ((t, cpus), mk_state L2 cpus ((t + 1) mod UINT_MOD) rd rest)
      end
  end.

(** [while(read || !all_cpus_sleeping(cpus_state))] *)
Definition loop_cond (st : state) : bool :=
  read st || negb (all_cpus_sleeping (cpus_state st)).

Inductive outcome :=
| Done (st : state)
| Failed (e : error)
| Out_of_fuel.

Fixpoint run (fuel : nat) (cfg : config) (st : state) : list record * outcome :=
  if loop_cond st then
    match fuel with
    | O => ([], Out_of_fuel)
    | S f =>
        match tick cfg st with
        | Err e => ([], Failed e)
        | Ok (r, st') => let '(rs, o) := run f cfg st' in (r :: rs, o)
        end
    end
  else ([], Done st).

(** The ready list of a tick (the live processes and the group read at
    this tick) has non-negative ids, pairwise distinct: the ids are unique
    among the live processes, and -1 is the idle sentinel. *)
Definition admissible (st : state) : Prop :=
  let '(L0, _, _, _) := read_input st in
  Forall (fun p => 0 <= id p) L0 /\ NoDup (map id L0).

(** ** Whole runs *)

(** The processes of the input lines not read yet. *)
Definition pending (inp : list line) : list proc_data :=
  flat_map (fun l => match l with
                     | Some (_, tuples) => map read_proc tuples
                     | None => []
                     end) inp.

(** The live processes, then those still to be read. *)
Definition future (st : state) : list proc_data :=
  proc_list st ++ (if read st then pending (input st) else []).

(** The sum of the remaining times of the processes whose id satisfies [f]. *)
Definition rem_sum (f : Z -> bool) (L : list proc_data) : Z :=
  fold_right (fun p acc => (if f (id p) then remaining_time p else 0) + acc) 0 L.

(** The number of printed lines in which [x] is in a slot. *)
Definition appearances (x : Z) (recs : list record) : nat :=
  length (filter (fun r => existsb (Z.eqb x) (snd r)) recs).

(** A valid method, a positive slice under round robin, at least one CPU. *)
Definition wf_config (cfg : config) : Prop :=
  0 <= method cfg <= 6 /\ (method cfg = 3 -> 0 < rr_time cfg) /\
  (1 <= cpu_count cfg)%nat.

(** Arrival lines, the last one possibly blank (the final "enter"); process
    ids non-negative and distinct; execution times between 1 and 2^32 - 1. *)
Definition wf_input (inp : list line) : Prop :=
  Forall (fun l => l <> None) (removelast inp) /\
  NoDup (map id (pending inp)) /\
  Forall (fun p => 0 <= id p /\ 1 <= exec_time p < UINT_MOD) (pending inp).

(** The bounds every process of a run keeps. *)
Definition proc_ok (p : proc_data) : Prop :=
  0 <= id p /\ 1 <= remaining_time p < UINT_MOD.

(** What a state of a well-formed run satisfies before each iteration. *)
Definition inv (cfg : config) (st : state) : Prop :=
  wf_config cfg /\ length (cpus_state st) = cpu_count cfg /\
  NoDup (map id (future st)) /\ Forall proc_ok (future st) /\
  (read st = true -> Forall (fun l => l <> None) (removelast (input st))) /\
  (read st = false -> all_cpus_sleeping (cpus_state st) = true -> proc_list st = []).

(** Decreases at every iteration of a well-formed run. *)
Definition measure (st : state) : Z :=
  (if read st then 1 + Z.of_nat (length (input st)) else 0)
  + rem_sum (fun _ => true) (future st)
  + (if all_cpus_sleeping (cpus_state st) then 0 else 1).

(** ** The order of Priority-SRTF as the spec states it *)

(** Stable order by priority, then remaining time. *)
Definition compare_priority_then_remaining (pd1 pd2 : proc_data) : bool :=
  (priority pd1 <? priority pd2)
  || ((priority pd1 =? priority pd2)
      && (remaining_time pd1 <? remaining_time pd2)).

(** ** The round-robin reorder as the spec states it *)

(** The time slice of a process has ended: its executed time
    [exec_time - remaining_time] is a positive multiple of [rr_time]. *)
Definition rr_slice_over (rr_time : Z) (p : proc_data) : bool :=
  let executed := (exec_time p - remaining_time p) mod UINT_MOD in
  (0 <? executed) && (executed mod rr_time =? 0).

(** A process is moved when its id is in an occupied slot of [occ] and its
    time slice is over. *)
Definition rr_moved (rr_time : Z) (occ : list Z) (p : proc_data) : bool :=
  existsb (Z.eqb (id p)) occ && rr_slice_over rr_time p.

(** The processes not moved, in their order, then the moved ones at the
    back, in the order of their slots. *)
Definition rr_spec_order (rr_time : Z) (occ : list Z) (L : list proc_data)
  : list proc_data :=
  filter (fun p => negb (rr_moved rr_time occ p)) L
  ++ flat_map (fun c => filter (fun p => (id p =? c) && rr_slice_over rr_time p) L) occ.

(** ** The execution accounting, element by element *)

(** What the "update proc_list" loop does to one process when [S] is the
    list of the occupied slots. *)
Definition charge (S : list Z) (p : proc_data) : list proc_data :=
  if existsb (Z.eqb (id p)) S then
    let r := dec_uint (remaining_time p) in
    if r =? 0 then [] else [set_remaining p r]
  else [p].

Definition occupied (cpus : list Z) : list Z :=
  filter (fun c => negb (c =? -1)) cpus.


(** ** Key orders *)

(** A strict total order on keys, given as a boolean comparison. *)
Record strict_total {K : Type} (klt : K -> K -> bool) : Prop := {
  st_irrefl : forall a, klt a a = false;
  st_trans : forall a b c, klt a b = true -> klt b c = true -> klt a c = true;
  st_total : forall a b, klt a b = false -> klt b a = false -> a = b
}.

(** [x] may precede [y] in a sequence sorted by [klt] on [key]. *)
Definition kle (A K : Type) (key : A -> K) (klt : K -> K -> bool) (x y : A) : Prop :=
  klt (key y) (key x) = false.

(** [x] has the key [v]. *)
Definition same_key (A K : Type) (key : A -> K)
  (keq_dec : forall a b : K, {a = b} + {a <> b}) (v : K) (x : A) : bool :=
  if keq_dec (key x) v then true else false.

(** The lexicographic order on (priority, remaining time). *)
Definition lex_ltb (x y : Z * Z) : bool :=
  (fst x <? fst y) || ((fst x =? fst y) && (snd x <? snd y)).

Definition Zpair_eq_dec (a b : Z * Z) : {a = b} + {a <> b}.
Proof. decide equality; apply Z.eq_dec. Defined.

Definition prio_rem (p : proc_data) : Z * Z := (priority p, remaining_time p).

Local Abbreviation same_prio := (same_key proc_data Z priority Z.eq_dec).
Local Abbreviation same_rem := (same_key proc_data Z remaining_time Z.eq_dec).
Local Abbreviation same_prio_rem := (same_key proc_data (Z * Z) prio_rem Zpair_eq_dec).

(** * General lemmas *)

(** ** Stable sort: permutation *)

Section StableSortPerm.
Variable A : Type.
Variable cmp : A -> A -> bool.

Lemma insert_perm : forall x l, Permutation (insert cmp x l) (x :: l).
Proof.
  intros x l; induction l as [|y t IH]; simpl; [reflexivity|].
  destruct (cmp y x); [|reflexivity].
  rewrite IH. apply perm_swap.
Qed.

Lemma stable_sort_perm : forall l, Permutation (stable_sort cmp l) l.
Proof.
  induction l as [|x t IH]; simpl; [reflexivity|].
  rewrite insert_perm. now apply perm_skip.
Qed.
End StableSortPerm.

Lemma StronglySorted_weaken {A} (R R' : A -> A -> Prop) (l : list A) :
  (forall a b, In a l -> In b l -> R a b -> R' a b) ->
  StronglySorted R l -> StronglySorted R' l.
Proof.
  induction l as [|x t IH]; intros Himp Hs; [constructor|].
  apply StronglySorted_inv in Hs as [Ht Hx].
  constructor.
  - apply IH; [|exact Ht]. intros a b Ha Hb; apply Himp; right; assumption.
  - rewrite Forall_forall in *. intros z Hz.
    apply Himp; [left; reflexivity|right; exact Hz|auto].
Qed.

Lemma StronglySorted_filter {A} (R : A -> A -> Prop) (f : A -> bool) l :
  StronglySorted R l -> StronglySorted R (filter f l).
Proof.
  induction l as [|x t IH]; intros Hs; simpl; [constructor|].
  apply StronglySorted_inv in Hs as [Ht Hx].
  destruct (f x); [|auto].
  constructor; [auto|].
  rewrite Forall_forall in *. intros z Hz. apply filter_In in Hz. apply Hx, Hz.
Qed.

Lemma filter_filter_and {A} (f g : A -> bool) l :
  filter f (filter g l) = filter (fun x => g x && f x) l.
Proof.
  induction l as [|x t IH]; simpl; [reflexivity|].
  destruct (g x); simpl; [destruct (f x)|]; simpl; rewrite ?IH; reflexivity.
Qed.

(** ** Stable sort by a key into a strict total order *)



Section KeySort.
Variables (A K : Type) (key : A -> K) (klt : K -> K -> bool).
Variable keq_dec : forall a b : K, {a = b} + {a <> b}.
Hypothesis Hst : strict_total klt.
Variable cmp : A -> A -> bool.
Hypothesis cmp_key : forall a b, cmp a b = klt (key a) (key b).


Lemma klt_asym : forall a b, klt a b = true -> klt b a = false.
Proof.
  intros a b H. destruct (klt b a) eqn:E; [|reflexivity].
  pose proof (st_trans _ Hst _ _ _ H E) as Haa.
  rewrite (st_irrefl _ Hst) in Haa. discriminate.
Qed.

Lemma kle_trans : forall x y z, kle A K key klt x y -> kle A K key klt y z -> kle A K key klt x z.
Proof.
  unfold kle. intros x y z Hxy Hyz.
  destruct (klt (key z) (key x)) eqn:E; [|reflexivity].
  destruct (klt (key x) (key y)) eqn:E2.
  - pose proof (st_trans _ Hst _ _ _ E E2) as H. congruence.
  - pose proof (st_total _ Hst _ _ E2 Hxy) as Heq. congruence.
Qed.

Lemma filter_insert : forall v x l,
  filter (same_key A K key keq_dec v) (insert cmp x l) = filter (same_key A K key keq_dec v) (x :: l).
Proof.
  intros v x l; induction l as [|y t IH]; simpl; [reflexivity|].
  destruct (cmp y x) eqn:E; [|reflexivity].
  simpl. rewrite IH. simpl. rewrite cmp_key in E.
  unfold same_key.
  destruct (keq_dec (key y) v) as [Hy|Hy], (keq_dec (key x) v) as [Hx|Hx];
    simpl; try reflexivity.
  rewrite Hy, Hx, (st_irrefl _ Hst) in E. discriminate.
Qed.

Lemma filter_stable_sort : forall v l,
  filter (same_key A K key keq_dec v) (stable_sort cmp l) = filter (same_key A K key keq_dec v) l.
Proof.
  intros v l; induction l as [|x t IH]; simpl; [reflexivity|].
  rewrite filter_insert. simpl. rewrite IH. reflexivity.
Qed.

Lemma sorted_insert : forall x l,
  StronglySorted (kle A K key klt) l -> StronglySorted (kle A K key klt) (insert cmp x l).
Proof.
  intros x l; induction l as [|y t IH]; intros Hs; simpl.
  - repeat constructor.
  - apply StronglySorted_inv in Hs as [Ht Hy].
    destruct (cmp y x) eqn:E; rewrite cmp_key in E.
    + constructor; [now apply IH|].
      rewrite Forall_forall. intros z Hz.
      apply (Permutation_in _ (insert_perm _ cmp x t)) in Hz.
      destruct Hz as [<-|Hz].
      * unfold kle. now apply klt_asym.
      * rewrite Forall_forall in Hy. auto.
    + constructor; [constructor; assumption|].
      constructor; [exact E|].
      rewrite Forall_forall in *. intros z Hz.
      apply (kle_trans x y z); [exact E|auto].
Qed.

Lemma stable_sort_sorted : forall l, StronglySorted (kle A K key klt) (stable_sort cmp l).
Proof.
  induction l as [|x t IH]; simpl; [constructor|].
  now apply sorted_insert.
Qed.

(** Two sequences sorted by the key, with the same subsequence for every
    key value, are equal: the stable sorted order is unique. *)
Lemma same_key_refl : forall x, same_key A K key keq_dec (key x) x = true.
Proof. intros x. unfold same_key. destruct (keq_dec (key x) (key x)); congruence. Qed.

Lemma same_key_true : forall v x, same_key A K key keq_dec v x = true -> key x = v.
Proof. intros v x. unfold same_key. destruct (keq_dec (key x) v); congruence. Qed.

Lemma same_key_false : forall v x, key x <> v -> same_key A K key keq_dec v x = false.
Proof. intros v x H. unfold same_key. destruct (keq_dec (key x) v); congruence. Qed.

(** Two sequences sorted by the key, with the same subsequence for every
    key value, are equal: the stable sorted order is unique. *)
Lemma sorted_unique : forall s1 s2,
  StronglySorted (kle A K key klt) s1 -> StronglySorted (kle A K key klt) s2 ->
  (forall v, filter (same_key A K key keq_dec v) s1 = filter (same_key A K key keq_dec v) s2) ->
  s1 = s2.
Proof.
  induction s1 as [|a t1 IH]; intros s2 H1 H2 Hf.
  - destruct s2 as [|b t2]; [reflexivity|].
    specialize (Hf (key b)). simpl in Hf. rewrite same_key_refl in Hf.
    discriminate.
  - destruct s2 as [|b t2].
    { specialize (Hf (key a)). simpl in Hf. rewrite same_key_refl in Hf.
      discriminate. }
    assert (Hin : forall x y t, StronglySorted (kle A K key klt) (y :: t) ->
                   In x (filter (same_key A K key keq_dec (key x)) (y :: t)) ->
                   x = y \/ kle A K key klt y x).
    { intros x y t Hs Hx. apply filter_In in Hx as [[<-|Hx] _]; [now left|].
      right. apply StronglySorted_inv in Hs as [_ Hs].
      rewrite Forall_forall in Hs; auto. }
    assert (Hk : key a = key b).
    { destruct (klt (key a) (key b)) eqn:E1.
      - assert (Ha' : In a (filter (same_key A K key keq_dec (key a)) (b :: t2))).
        { rewrite <- Hf. simpl. rewrite same_key_refl. left; reflexivity. }
        destruct (Hin a b t2 H2 Ha') as [->|Hl].
        + rewrite (st_irrefl _ Hst) in E1. discriminate.
        + unfold kle in Hl. congruence.
      - destruct (klt (key b) (key a)) eqn:E2.
        + assert (Hb' : In b (filter (same_key A K key keq_dec (key b)) (a :: t1))).
          { rewrite Hf. simpl. rewrite same_key_refl. left; reflexivity. }
          destruct (Hin b a t1 H1 Hb') as [->|Hl].
          * rewrite (st_irrefl _ Hst) in E2. discriminate.
          * unfold kle in Hl. congruence.
        + now apply (st_total _ Hst). }
    apply StronglySorted_inv in H1 as [Ht1 _].
    apply StronglySorted_inv in H2 as [Ht2 _].
    assert (Hab : a = b).
    { specialize (Hf (key a)). simpl in Hf.
      rewrite same_key_refl, Hk, same_key_refl in Hf. congruence. }
    subst b. f_equal. apply IH; [assumption|assumption|].
    intros v. specialize (Hf v). simpl in Hf.
    destruct (same_key A K key keq_dec v a); [congruence|exact Hf].
Qed.
End KeySort.

(** ** The key orders of the comparators *)

Lemma Zltb_strict : strict_total Z.ltb.
Proof.
  constructor.
  - exact Z.ltb_irrefl.
  - intros a b c H1 H2. rewrite Z.ltb_lt in *. lia.
  - intros a b H1 H2. rewrite Z.ltb_ge in *. lia.
Qed.

Lemma lex_strict : strict_total lex_ltb.
Proof.
  unfold lex_ltb. constructor.
  - intros [a1 a2]; simpl. rewrite !Z.ltb_irrefl. now rewrite andb_false_r.
  - intros [a1 a2] [b1 b2] [c1 c2]; simpl.
    rewrite !orb_true_iff, !andb_true_iff, !Z.ltb_lt, !Z.eqb_eq. lia.
  - intros [a1 a2] [b1 b2]; simpl.
    rewrite !orb_false_iff, !andb_false_iff, !Z.ltb_ge, !Z.eqb_neq.
    intros [H1 H2] [H3 H4]. f_equal; lia.
Qed.


Lemma same_prio_rem_split : forall v w x,
  same_prio_rem (v, w) x = same_prio v x && same_rem w x.
Proof.
  intros v w x. unfold same_key, prio_rem.
  destruct (Zpair_eq_dec (priority x, remaining_time x) (v, w)),
    (Z.eq_dec (priority x) v), (Z.eq_dec (remaining_time x) w);
    simpl; congruence.
Qed.

(** The two stable sorts of [prio_srtf] give the stable lexicographic sort. *)
Lemma sort_remaining_then_priority : forall L,
  stable_sort compare_priority (stable_sort compare_remaining_time L)
  = stable_sort compare_priority_then_remaining L.
Proof.
  intros L.
  set (R := stable_sort compare_remaining_time L).
  apply (sorted_unique proc_data Z priority Z.ltb Z.eq_dec Zltb_strict).
  - apply (stable_sort_sorted _ _ priority Z.ltb Zltb_strict); reflexivity.
  - eapply StronglySorted_weaken;
      [|apply (stable_sort_sorted _ _ prio_rem lex_ltb lex_strict); reflexivity].
    intros a b _ _. unfold kle, lex_ltb, prio_rem; simpl.
    rewrite orb_false_iff. tauto.
  - intros v.
    rewrite (filter_stable_sort _ _ priority Z.ltb Z.eq_dec Zltb_strict
               compare_priority (fun _ _ => eq_refl)).
    apply (sorted_unique proc_data Z remaining_time Z.ltb Z.eq_dec Zltb_strict).
    + apply StronglySorted_filter.
      apply (stable_sort_sorted _ _ remaining_time Z.ltb Zltb_strict); reflexivity.
    + eapply StronglySorted_weaken;
        [|apply StronglySorted_filter;
          apply (stable_sort_sorted _ _ prio_rem lex_ltb lex_strict); reflexivity].
      intros a b Ha Hb H.
      apply filter_In in Ha as [_ Ha]. apply filter_In in Hb as [_ Hb].
      apply same_key_true in Ha. apply same_key_true in Hb.
      unfold kle, lex_ltb, prio_rem in *; simpl in *.
      rewrite Ha, Hb, Z.ltb_irrefl, Z.eqb_refl in H. exact H.
    + intros w.
      assert (E1 : filter (same_rem w) (filter (same_prio v) R)
                   = filter (same_prio v) (filter (same_rem w) L)).
      { unfold R.
        rewrite <- (filter_stable_sort _ _ remaining_time Z.ltb Z.eq_dec Zltb_strict
                      compare_remaining_time (fun _ _ => eq_refl) w L).
        rewrite !filter_filter_and. apply filter_ext. intros; apply andb_comm. }
      assert (E2 : filter (same_rem w)
                     (filter (same_prio v)
                        (stable_sort compare_priority_then_remaining L))
                   = filter (same_prio v) (filter (same_rem w) L)).
      { rewrite !filter_filter_and.
        transitivity (filter (same_prio_rem (v, w))
                        (stable_sort compare_priority_then_remaining L)).
        { apply filter_ext. intros; now rewrite same_prio_rem_split. }
        rewrite (filter_stable_sort _ _ prio_rem lex_ltb Zpair_eq_dec lex_strict
                   compare_priority_then_remaining (fun _ _ => eq_refl)).
        apply filter_ext. intros; rewrite same_prio_rem_split. apply andb_comm. }
      rewrite E1, E2. reflexivity.
Qed.

(** ** Slot fill *)

Lemma fill_cpus_spec : forall cpus L,
  fill_cpus L cpus
  = map id (firstn (length cpus) L) ++ repeat (-1) (length cpus - length L)%nat.
Proof.
  induction cpus as [|c cs IH]; intros L; simpl; [reflexivity|].
  destruct L as [|p ps]; simpl.
  - rewrite IH, firstn_nil. simpl. rewrite Nat.sub_0_r. reflexivity.
  - rewrite IH. reflexivity.
Qed.

Lemma fill_cpus_length : forall cpus L, length (fill_cpus L cpus) = length cpus.
Proof.
  induction cpus as [|c cs IH]; intros L; simpl; [reflexivity|].
  destruct L; simpl; rewrite IH; reflexivity.
Qed.

Lemma fill_cpus_same_length : forall c1 c2 L,
  length c1 = length c2 -> fill_cpus L c1 = fill_cpus L c2.
Proof.
  induction c1 as [|x1 t1 IH]; intros [|x2 t2] L H; simpl in *;
    try discriminate; [reflexivity|].
  destruct L; rewrite (IH t2); auto.
Qed.

Lemma insert_cpu_idle : forall occ c,
  Forall (fun z => 0 <= z) occ ->
  insert cpu_cmp (-1) (occ ++ repeat (-1) c) = occ ++ repeat (-1) (S c).
Proof.
  induction occ as [|y t IH]; intros c Hocc; simpl.
  - destruct c; reflexivity.
  - inversion Hocc as [|? ? Hy Ht]; subst.
    unfold cpu_cmp at 1.
    replace ((0 <=? y) && (0 <=? -1)) with false
      by (symmetry; apply andb_false_intro2; reflexivity).
    replace (-1 <? y) with true by (symmetry; apply Z.ltb_lt; lia).
    rewrite IH by assumption. reflexivity.
Qed.

Lemma insert_cpu_busy : forall occ c x,
  0 <= x -> Forall (fun z => 0 <= z) occ ->
  insert cpu_cmp x (occ ++ repeat (-1) c) = insert Z.ltb x occ ++ repeat (-1) c.
Proof.
  induction occ as [|y t IH]; intros c x Hx Hocc; simpl.
  - destruct c; simpl; [reflexivity|].
    unfold cpu_cmp. replace (0 <=? -1) with false by reflexivity.
    replace (x <? -1) with false by (symmetry; apply Z.ltb_ge; lia).
    reflexivity.
  - inversion Hocc as [|? ? Hy Ht]; subst.
    unfold cpu_cmp at 1.
    replace ((0 <=? y) && (0 <=? x)) with true
      by (symmetry; apply andb_true_intro; split; apply Z.leb_le; lia).
    destruct (y <? x); [rewrite IH by assumption|]; reflexivity.
Qed.

Lemma stable_sort_cpus : forall l,
  Forall (fun z => 0 <= z \/ z = -1) l ->
  stable_sort cpu_cmp l
  = stable_sort Z.ltb (filter (fun z => 0 <=? z) l)
    ++ repeat (-1) (length (filter (fun z => z =? -1) l)).
Proof.
  induction l as [|x t IH]; intros Hl; simpl; [reflexivity|].
  inversion Hl as [|? ? Hx Ht]; subst.
  assert (Hocc : Forall (fun z => 0 <= z)
                   (stable_sort Z.ltb (filter (fun z => 0 <=? z) t))).
  { rewrite Forall_forall. intros z Hz.
    apply (Permutation_in _ (stable_sort_perm _ _ _)) in Hz.
    apply filter_In in Hz as [_ Hz]. now apply Z.leb_le. }
  rewrite IH by assumption.
  destruct Hx as [Hx| ->].
  - replace (0 <=? x) with true by (symmetry; now apply Z.leb_le).
    replace (x =? -1) with false by (symmetry; apply Z.eqb_neq; lia).
    now apply insert_cpu_busy.
  - simpl. now apply insert_cpu_idle.
Qed.

Lemma sorted_ltb_le : forall l, Sorted Z.le (stable_sort Z.ltb l).
Proof.
  intros l. apply StronglySorted_Sorted.
  eapply StronglySorted_weaken;
    [|apply (stable_sort_sorted Z Z (fun z => z) Z.ltb Zltb_strict); reflexivity].
  intros a b _ _. unfold kle. rewrite Z.ltb_ge. lia.
Qed.

Lemma In_firstn {A} (n : nat) (l : list A) x : In x (firstn n l) -> In x l.
Proof. intros H. rewrite <- (firstn_skipn n l). apply in_or_app. now left. Qed.

Lemma In_skipn {A} (n : nat) (l : list A) x : In x (skipn n l) -> In x l.
Proof. intros H. rewrite <- (firstn_skipn n l). apply in_or_app. now right. Qed.

Lemma filter_all {A} (f : A -> bool) l :
  (forall x, In x l -> f x = true) -> filter f l = l.
Proof.
  induction l as [|x t IH]; intros H; simpl; [reflexivity|].
  rewrite H by (left; reflexivity). rewrite IH; auto with datatypes.
Qed.

Lemma filter_none {A} (f : A -> bool) l :
  (forall x, In x l -> f x = false) -> filter f l = [].
Proof.
  induction l as [|x t IH]; intros H; simpl; [reflexivity|].
  rewrite H by (left; reflexivity). apply IH; auto with datatypes.
Qed.

(** With non-negative ids, the sorted slot vector of [update_cpus_state]. *)
Lemma update_cpus_state_shape : forall L cpus,
  Forall (fun p => 0 <= id p) L ->
  update_cpus_state L cpus
  = stable_sort Z.ltb (map id (firstn (length cpus) L))
    ++ repeat (-1) (length cpus - length L)%nat.
Proof.
  intros L cpus HL. unfold update_cpus_state.
  rewrite fill_cpus_spec.
  assert (Hocc : forall z, In z (map id (firstn (length cpus) L)) -> 0 <= z).
  { intros z Hz. apply in_map_iff in Hz as [p [<- Hp]].
    apply In_firstn in Hp. rewrite Forall_forall in HL. auto. }
  rewrite stable_sort_cpus.
  - rewrite !filter_app.
    rewrite (filter_all (fun z => 0 <=? z)) by (intros z Hz; apply Z.leb_le; auto).
    rewrite (filter_none (fun z => 0 <=? z) (repeat _ _))
      by (intros z Hz; apply repeat_spec in Hz; subst; reflexivity).
    rewrite (filter_none (fun z => z =? -1))
      by (intros z Hz; apply Z.eqb_neq; specialize (Hocc z Hz); lia).
    rewrite (filter_all (fun z => z =? -1) (repeat _ _))
      by (intros z Hz; apply repeat_spec in Hz; subst; reflexivity).
    rewrite app_nil_r, app_nil_l, repeat_length. reflexivity.
  - rewrite Forall_forall. intros z Hz. apply in_app_or in Hz as [Hz|Hz].
    + left; auto.
    + right; now apply repeat_spec in Hz.
Qed.

(** * Claims *)

(** ** C1: slot fill *)

(** C1 (counterexample). A process with a negative id: with one process of
    id -5 and two slots, slot fill writes [-5; -1], and the stable sort by
    [(i >= 0 && j >= 0) ? i < j : i > j] puts the idle slot first: the
    occupied slot does not come first. *)
Lemma C1_negative_id_after_idle :
  fill_cpus [mk_proc (-5) 0 1 1] [0; 0] = [-5; -1] /\
  update_cpus_state [mk_proc (-5) 0 1 1] [0; 0] = [-1; -5].
Proof. split; reflexivity. Qed.

(** C1 (amended). For a ready list with non-negative ids and a slot vector
    of length N, slot fill writes the ids of the first min(N, length) processes
    in order into the first slots and -1 into the others; the stable sort
    then gives the occupied slots in ascending id order followed by the
    idle slots; the result depends only on the ready list and N. *)
Theorem update_cpus_state_slot_fill : forall L cpus,
  Forall (fun p => 0 <= id p) L ->
  fill_cpus L cpus
    = map id (firstn (length cpus) L)
      ++ repeat (-1) (length cpus - length L)%nat /\
  (exists occ,
     update_cpus_state L cpus = occ ++ repeat (-1) (length cpus - length L)%nat /\
     Sorted Z.le occ /\
     Permutation occ (map id (firstn (length cpus) L))) /\
  (forall cpus', length cpus' = length cpus ->
     update_cpus_state L cpus' = update_cpus_state L cpus).
Proof.
  intros L cpus HL. split; [apply fill_cpus_spec|split].
  - exists (stable_sort Z.ltb (map id (firstn (length cpus) L))).
    split; [now apply update_cpus_state_shape|].
    split; [apply sorted_ltb_le|apply stable_sort_perm].
  - intros cpus' Hlen. unfold update_cpus_state.
    now rewrite (fill_cpus_same_length cpus' cpus).
Qed.

Lemma update_cpus_state_slot_fill_witness :
  Forall (fun p => 0 <= id p) [mk_proc 7 0 1 1; mk_proc 3 0 1 1] /\
  update_cpus_state [mk_proc 7 0 1 1; mk_proc 3 0 1 1] [0; 0; 0] = [3; 7; -1].
Proof.
  split; [repeat constructor; simpl; lia|].
  destruct (update_cpus_state_slot_fill [mk_proc 7 0 1 1; mk_proc 3 0 1 1] [0; 0; 0])
    as [_ [_ _]]; [repeat constructor; simpl; lia|].
  reflexivity.
Defined.

(** ** C8: Priority-SRTF order *)

(** C8. The two stable sorts of [prio_srtf] (remaining time, then
    priority) give exactly the stable lexicographic order by
    (priority, remaining time): the result is sorted by that pair, keeps
    the original order of the processes with the same pair, and is the one
    [prio_srtf] fills the slots from. *)
Theorem prio_srtf_lexicographic : forall L cpus,
  let R := stable_sort compare_priority (stable_sort compare_remaining_time L) in
  R = stable_sort compare_priority_then_remaining L /\
  StronglySorted (fun a b => lex_ltb (prio_rem b) (prio_rem a) = false) R /\
  (forall k, filter (same_prio_rem k) R = filter (same_prio_rem k) L) /\
  prio_srtf L cpus = Ok (R, update_cpus_state R cpus).
Proof.
  intros L cpus R.
  assert (HR : R = stable_sort compare_priority_then_remaining L)
    by apply sort_remaining_then_priority.
  split; [exact HR|split; [|split]].
  - rewrite HR.
    apply (stable_sort_sorted _ _ prio_rem lex_ltb lex_strict); reflexivity.
  - intros k. rewrite HR.
    apply (filter_stable_sort _ _ prio_rem lex_ltb Zpair_eq_dec lex_strict).
    reflexivity.
  - reflexivity.
Qed.

(** ** Searching the ready list by id *)

Lemma split_at_id_some : forall c X pre p post,
  split_at_id c X = Some (pre, p, post) ->
  X = pre ++ p :: post /\ id p = c /\ (forall q, In q pre -> id q <> c).
Proof.
  intros c X; induction X as [|q t IH]; intros pre p post H; simpl in H;
    [discriminate|].
  destruct (id q =? c) eqn:E.
  - injection H as <- <- <-. apply Z.eqb_eq in E. simpl; auto.
  - destruct (split_at_id c t) as [[[a r] b]|] eqn:Ht; [|discriminate].
    injection H as <- <- <-.
    destruct (IH a r b eq_refl) as [-> [Hr Ha]].
    split; [reflexivity|split; [exact Hr|]].
    intros q' [<-|Hq']; [apply Z.eqb_neq; exact E|auto].
Qed.

Lemma split_at_id_none : forall c X,
  (forall q, In q X -> id q <> c) -> split_at_id c X = None.
Proof.
  intros c X; induction X as [|q t IH]; intros H; simpl; [reflexivity|].
  replace (id q =? c) with false
    by (symmetry; apply Z.eqb_neq; apply H; left; reflexivity).
  rewrite IH; [reflexivity|]. intros; apply H; right; assumption.
Qed.

Lemma split_at_id_found : forall c X,
  split_at_id c X = None -> forall q, In q X -> id q <> c.
Proof.
  intros c X; induction X as [|q t IH]; intros H q' Hq'; [destruct Hq'|].
  simpl in H. destruct (id q =? c) eqn:E; [discriminate|].
  destruct (split_at_id c t) as [[[a r] b]|]; [discriminate|].
  destruct Hq' as [<-|Hq']; [apply Z.eqb_neq; exact E|auto].
Qed.

Lemma filter_id_unique : forall c L p,
  NoDup (map id L) -> In p L -> id p = c ->
  filter (fun q => id q =? c) L = [p].
Proof.
  intros c L; induction L as [|q t IH]; intros p Hnd Hp Hc; [destruct Hp|].
  simpl in Hnd. apply NoDup_cons_iff in Hnd as [Hq Hnd]. simpl.
  destruct Hp as [<-|Hp].
  - rewrite Hc, Z.eqb_refl. f_equal. apply filter_none.
    intros x Hx. apply Z.eqb_neq. intros Hxc. apply Hq.
    rewrite Hc, <- Hxc. now apply in_map.
  - replace (id q =? c) with false; [now apply IH|].
    symmetry. apply Z.eqb_neq. intros Hqc. apply Hq. rewrite Hqc, <- Hc.
    now apply in_map.
Qed.

(** Cutting out the unique element with id [c]. *)
Lemma split_at_id_unique : forall c X pre p post,
  split_at_id c X = Some (pre, p, post) ->
  filter (fun q => id q =? c) X = [p] ->
  X = pre ++ p :: post /\ id p = c /\
  pre ++ post = filter (fun q => negb (id q =? c)) X.
Proof.
  intros c X pre p post Hs Hu.
  destruct (split_at_id_some _ _ _ _ _ Hs) as [HX [Hp Hpre]].
  split; [exact HX|split; [exact Hp|]].
  subst X. rewrite filter_app in Hu. simpl in Hu.
  rewrite (filter_none _ pre) in Hu by (intros q Hq; apply Z.eqb_neq; auto).
  rewrite Hp, Z.eqb_refl in Hu. simpl in Hu. injection Hu as Hpost.
  rewrite filter_app. simpl. rewrite Hp, Z.eqb_refl. simpl.
  rewrite (filter_all _ pre)
    by (intros q Hq; apply negb_true_iff, Z.eqb_neq; auto).
  f_equal. symmetry. apply filter_all. intros q Hq.
  apply negb_true_iff. destruct (id q =? c) eqn:E; [|reflexivity].
  exfalso. assert (Hin : In q (filter (fun q => id q =? c) post))
    by (apply filter_In; auto).
  rewrite Hpost in Hin. destruct Hin.
Qed.

(** ** The round-robin loop *)

Section RoundRobin.
Variable rr_time : Z.
Hypothesis Hrr : 0 < rr_time.



Lemma rr_spec_order_in : forall C1 L q,
  In q (rr_spec_order rr_time C1 L) -> In q L.
Proof.
  intros C1 L q Hq. unfold rr_spec_order in Hq.
  apply in_app_or in Hq as [Hq|Hq].
  - apply filter_In in Hq; tauto.
  - apply in_flat_map in Hq as [c' [_ Hq]]. apply filter_In in Hq; tauto.
Qed.


End RoundRobin.



Lemma In_map_id_perm : forall L L' c, Permutation L' L ->
  In c (map id L) -> In c (map id L').
Proof.
  intros L L' c HP Hc. eapply Permutation_in; [|exact Hc].
  apply Permutation_map. symmetry. exact HP.
Qed.

(** With a positive slice, the loop succeeds when every occupied slot holds
    the id of a process of the ready list. *)
Lemma rr_loop_ok : forall rr_time, 0 < rr_time ->
  forall cpus L, (forall c, In c cpus -> c <> -1 -> In c (map id L)) ->
  exists L', rr_loop rr_time cpus L = Ok L'.
Proof.
  intros rr_time Hrr cpus. induction cpus as [|c cs IH]; intros L Hin; simpl; [eauto|].
  destruct (Z.eqb_spec c (-1)) as [E|E]; [eauto|].
  destruct (split_at_id c L) as [[[pre p] post]|] eqn:Hs.
  2:{ exfalso. destruct (proj1 (in_map_iff _ _ _) (Hin c (or_introl eq_refl) E))
        as [q [Hqc Hq]].
      exact (split_at_id_found c L Hs q Hq Hqc). }
  destruct (split_at_id_some _ _ _ _ _ Hs) as [HL _].
  assert (Hcs : forall L', Permutation L' L ->
            forall c', In c' cs -> c' <> -1 -> In c' (map id L')).
  { intros L' HP c' Hc' Hc1. apply (In_map_id_perm L); [exact HP|].
    apply Hin; [right; exact Hc'|exact Hc1]. }
  replace (rr_time =? 0) with false by (symmetry; apply Z.eqb_neq; lia).
  destruct (0 <? _); [destruct (_ mod rr_time =? 0)|]; apply IH; apply Hcs;
    try reflexivity.
  rewrite HL. apply Permutation_app_head. symmetry. apply Permutation_cons_append.
Qed.



(** ** C4: round-robin reorder *)




(** ** C7: round robin on a slot whose process is gone *)




(** ** The execution accounting loop *)

Lemma flat_map_ext_in {A B} (f g : A -> list B) l :
  (forall x, In x l -> f x = g x) -> flat_map f l = flat_map g l.
Proof.
  induction l as [|x t IH]; intros H; simpl; [reflexivity|].
  rewrite H by (left; reflexivity). rewrite IH; auto with datatypes.
Qed.

Lemma flat_map_flat_map {A B C} (f : B -> list C) (g : A -> list B) l :
  flat_map f (flat_map g l) = flat_map (fun x => flat_map f (g x)) l.
Proof.
  induction l as [|x t IH]; simpl; [reflexivity|].
  rewrite flat_map_app, IH. reflexivity.
Qed.

Lemma charge_nil : forall L, flat_map (charge []) L = L.
Proof. induction L as [|x t IH]; simpl; [reflexivity|]. now rewrite IH. Qed.

Lemma charge_ids : forall S p q, In q (charge S p) -> id q = id p.
Proof.
  intros S p q. unfold charge.
  destruct (existsb _ S); [destruct (_ =? 0)|]; simpl; intros H;
    [destruct H| |]; destruct H as [<-|[]]; reflexivity.
Qed.

Lemma map_id_flat_map_charge : forall S L,
  incl (map id (flat_map (charge S) L)) (map id L).
Proof.
  intros S L z Hz. apply in_map_iff in Hz as [q [<- Hq]].
  apply in_flat_map in Hq as [p [Hp Hq]].
  rewrite (charge_ids _ _ _ Hq). now apply in_map.
Qed.

Lemma NoDup_flat_map_charge : forall S L,
  NoDup (map id L) -> NoDup (map id (flat_map (charge S) L)).
Proof.
  intros S L; induction L as [|x t IH]; intros Hnd; simpl; [constructor|].
  apply NoDup_cons_iff in Hnd as [Hx Hnd].
  rewrite map_app. unfold charge at 1.
  assert (Hx' : ~ In (id x) (map id (flat_map (charge S) t)))
    by (intros Hin; apply Hx; now apply map_id_flat_map_charge in Hin).
  destruct (existsb _ S); [destruct (_ =? 0)|]; simpl; auto;
    constructor; auto.
Qed.

Lemma update_proc_list_charge : forall cpus L,
  NoDup (map id L) -> NoDup (occupied cpus) ->
  (forall c, In c cpus -> c <> -1 -> exists p, In p L /\ id p = c) ->
  update_proc_list cpus L = Ok (flat_map (charge (occupied cpus)) L).
Proof.
  induction cpus as [|c cs IH]; intros L Hnd Hocc Hfound; simpl.
  - now rewrite charge_nil.
  - unfold occupied in *. simpl in Hocc |- *.
    destruct (c =? -1) eqn:Ec; simpl in Hocc |- *.
    { apply IH; auto. intros c' Hc'; apply Hfound; right; exact Hc'. }
    apply Z.eqb_neq in Ec.
    apply NoDup_cons_iff in Hocc as [HcS Hocc].
    destruct (Hfound c (or_introl eq_refl) Ec) as [p [Hp Hpc]].
    assert (HuL : filter (fun q => id q =? c) L = [p])
      by (apply filter_id_unique; assumption).
    destruct (split_at_id c L) as [[[pre p'] post]|] eqn:Hs.
    2:{ exfalso. eapply split_at_id_found; eauto. }
    assert (p' = p).
    { destruct (split_at_id_some _ _ _ _ _ Hs) as [HXs [Hp'c _]].
      assert (Hin : In p' (filter (fun q => id q =? c) L))
        by (apply filter_In; split; [rewrite HXs; apply in_or_app; right; left; reflexivity
                                    |now apply Z.eqb_eq]).
      rewrite HuL in Hin. destruct Hin as [<-|[]]; reflexivity. }
    subst p'.
    destruct (split_at_id_unique _ _ _ _ _ Hs HuL) as [HL [_ _]].
    assert (Hpre : forall q, In q pre -> id q <> c)
      by (apply (proj2 (proj2 (split_at_id_some _ _ _ _ _ Hs)))).
    assert (Hpost : forall q, In q post -> id q <> c).
    { intros q Hq Hqc. assert (Hin : In q (filter (fun q => id q =? c) L)).
      { apply filter_In. split; [rewrite HL; apply in_or_app; right; right; exact Hq|].
        now apply Z.eqb_eq. }
      rewrite HuL in Hin. destruct Hin as [<-|[]].
      rewrite HL, map_app in Hnd. simpl in Hnd.
      apply NoDup_remove_2 in Hnd. apply Hnd. apply in_or_app. right. now apply in_map. }
    set (S := filter (fun c0 => negb (c0 =? -1)) cs) in *.
    (* the list after this slot is [flat_map (charge [c]) L] *)
    assert (Hstep : forall L', L' = pre ++ charge [c] p ++ post ->
              update_proc_list cs L' = Ok (flat_map (charge (c :: S)) L)).
    { intros L' ->.
      assert (HL'ch : pre ++ charge [c] p ++ post = flat_map (charge [c]) L).
      { rewrite HL, flat_map_app. simpl.
        assert (Hid : forall l, (forall q, In q l -> id q <> c) -> flat_map (charge [c]) l = l).
        { intros l Hl. induction l as [|x t IHt]; simpl; [reflexivity|].
          unfold charge at 1. simpl. replace (id x =? c) with false
            by (symmetry; apply Z.eqb_neq; apply Hl; left; reflexivity).
          simpl. f_equal. apply IHt. intros; apply Hl; right; assumption. }
        rewrite (Hid pre Hpre), (Hid post Hpost). reflexivity. }
      rewrite HL'ch. rewrite IH.
      - f_equal. rewrite flat_map_flat_map. apply flat_map_ext_in.
        intros q Hq. unfold charge. simpl.
        destruct (id q =? c) eqn:Eqc; simpl.
        + apply Z.eqb_eq in Eqc.
          assert (HqS : existsb (Z.eqb (id q)) S = false).
          { apply not_true_iff_false. intros Hin. apply existsb_exists in Hin as [c' [Hc' Heq]].
            apply Z.eqb_eq in Heq. apply HcS. rewrite <- Eqc, Heq. exact Hc'. }
          destruct (dec_uint (remaining_time q) =? 0); simpl; [reflexivity|].
          rewrite HqS. reflexivity.
        + rewrite app_nil_r. reflexivity.
      - now apply NoDup_flat_map_charge.
      - exact Hocc.
      - intros c' Hc' Hc'1.
        destruct (Hfound c' (or_intror Hc') Hc'1) as [q [Hq Hqc']].
        assert (c' <> c).
        { intros ->. apply HcS. unfold S. apply filter_In. split; [exact Hc'|].
          apply negb_true_iff, Z.eqb_neq. exact Ec. }
        exists q. split; [|exact Hqc'].
        apply in_flat_map. exists q. split; [exact Hq|].
        unfold charge. simpl. replace (id q =? c) with false
          by (symmetry; apply Z.eqb_neq; congruence).
        left; reflexivity. }
    assert (Hch : charge [c] p
                  = if dec_uint (remaining_time p) =? 0 then []
                    else [set_remaining p (dec_uint (remaining_time p))]).
    { unfold charge. simpl. rewrite Hpc, Z.eqb_refl. reflexivity. }
    destruct (dec_uint (remaining_time p) =? 0); apply Hstep; rewrite Hch; reflexivity.
Qed.

(** ** The policies: a permutation of the ready list, then slot fill *)

Lemma Permutation_filter' {A} (f : A -> bool) l l' :
  Permutation l l' -> Permutation (filter f l) (filter f l').
Proof.
  induction 1; simpl.
  - constructor.
  - destruct (f x); auto.
  - destruct (f x), (f y); auto; constructor.
  - eapply perm_trans; eauto.
Qed.

Lemma count_id_le_1 : forall c L, NoDup (map id L) -> (count_id c L <= 1)%nat.
Proof.
  intros c L Hnd. unfold count_id.
  destruct (existsb (fun q => id q =? c) L) eqn:E.
  - apply existsb_exists in E as [p [Hp Hpc]]. apply Z.eqb_eq in Hpc.
    rewrite (filter_id_unique c L p); auto.
  - rewrite filter_none; [simpl; lia|].
    intros q Hq. apply not_true_iff_false. intros Hqc.
    apply not_true_iff_false in E. apply E, existsb_exists. eauto.
Qed.

Lemma skip_running_le : forall L cpus k, NoDup (map id L) ->
  (k <= length L)%nat -> (skip_running L cpus k <= length L)%nat.
Proof.
  intros L cpus; induction cpus as [|c cs IH]; intros k Hnd Hk; simpl; [exact Hk|].
  destruct (Nat.eqb k (length L)) eqn:E1; simpl; [exact Hk|].
  destruct (c =? -1); [exact Hk|].
  apply IH; [exact Hnd|]. apply Nat.eqb_neq in E1.
  pose proof (count_id_le_1 c L Hnd). lia.
Qed.

Lemma sort_after_running_ok : forall cmp L cpus, NoDup (map id L) ->
  exists L', sort_after_running cmp L cpus = Ok L' /\ Permutation L' L.
Proof.
  intros cmp L cpus Hnd. unfold sort_after_running.
  pose proof (skip_running_le L cpus 0 Hnd ltac:(lia)) as Hk.
  apply Nat.leb_le in Hk. rewrite Hk.
  eexists; split; [reflexivity|].
  transitivity (firstn (skip_running L cpus 0) L ++ skipn (skip_running L cpus 0) L).
  - apply Permutation_app_head. apply stable_sort_perm.
  - rewrite firstn_skipn. reflexivity.
Qed.

Lemma sort_after_running_perm : forall cmp L cpus L',
  sort_after_running cmp L cpus = Ok L' -> Permutation L' L.
Proof.
  intros cmp L cpus L' H. unfold sort_after_running in H.
  destruct (Nat.leb _ _); [|discriminate]. injection H as <-.
  transitivity (firstn (skip_running L cpus 0) L ++ skipn (skip_running L cpus 0) L).
  - apply Permutation_app_head. apply stable_sort_perm.
  - rewrite firstn_skipn. reflexivity.
Qed.

Lemma rr_loop_perm : forall rr_time cpus L L',
  rr_loop rr_time cpus L = Ok L' -> Permutation L' L.
Proof.
  intros rr_time cpus; induction cpus as [|c cs IH]; intros L L' H; simpl in H.
  - injection H as <-. reflexivity.
  - destruct (c =? -1); [injection H as <-; reflexivity|].
    destruct (split_at_id c L) as [[[pre p] post]|] eqn:Hs; [|discriminate].
    destruct (split_at_id_some _ _ _ _ _ Hs) as [HL _].
    destruct (0 <? _); [destruct (rr_time =? 0); [discriminate|]; destruct (_ =? 0)|];
      try (eapply IH; exact H).
    apply IH in H. rewrite H, HL. apply Permutation_app_head.
    symmetry. apply Permutation_cons_append.
Qed.

(** Every policy returns a permutation of the ready list and the slots
    that slot fill gives for it. *)
Lemma schedule_shape : forall m r L cpus L2 cpus',
  schedule m r L cpus = Ok (L2, cpus') ->
  Permutation L2 L /\ cpus' = update_cpus_state L2 cpus.
Proof.
  intros m r L cpus L2 cpus' H.
  unfold schedule in H.
  destruct m as [|[p|p|]|p]; try discriminate;
    try (destruct p; try discriminate; try (destruct p; try discriminate);
         try (destruct p; try discriminate));
    unfold fcfs, sjf, srtf, rr, prio_fcfs, prio_srtf, prio_fcfs_no_preemption, bind in H;
    first
      [ injection H as <- <-; split; [try reflexivity; try apply stable_sort_perm|reflexivity]
      | destruct (sort_after_running _ L cpus) eqn:E; [|discriminate];
        injection H as <- <-; split; [eapply sort_after_running_perm; eauto|reflexivity]
      | destruct (rr_loop r cpus L) eqn:E; [|discriminate];
        injection H as <- <-; split; [eapply rr_loop_perm; eauto|reflexivity] ].
  (* prio_srtf *)
  all: rewrite (stable_sort_perm _ compare_priority); apply stable_sort_perm.
Qed.

(** Every valid method succeeds on a ready list with distinct ids; round
    robin needs a positive slice and the id of every occupied slot in the
    ready list. *)
Lemma schedule_ok : forall m r L cpus,
  0 <= m <= 6 ->
  (m = 3 -> 0 < r /\ forall c, In c cpus -> c <> -1 -> In c (map id L)) ->
  NoDup (map id L) ->
  exists L2 cpus', schedule m r L cpus = Ok (L2, cpus').
Proof.
  intros m r L cpus Hm Hr Hnd.
  assert (m = 0 \/ m = 1 \/ m = 2 \/ m = 3 \/ m = 4 \/ m = 5 \/ m = 6) as Hcases by lia.
  destruct Hcases as [->|[->|[->|[->|[->|[->| ->]]]]]]; simpl;
    unfold fcfs, sjf, srtf, rr, prio_fcfs, prio_srtf, prio_fcfs_no_preemption, bind;
    eauto.
  - destruct (sort_after_running_ok compare_exec_time L cpus Hnd) as [L' [-> _]]. eauto.
  - destruct (Hr eq_refl) as [Hr0 Hin].
    destruct (rr_loop_ok r Hr0 cpus L Hin) as [L' ->]. eauto.
  - destruct (sort_after_running_ok compare_priority L cpus Hnd) as [L' [-> _]]. eauto.
Qed.

Lemma NoDup_firstn {A} (n : nat) (l : list A) : NoDup l -> NoDup (firstn n l).
Proof.
  intros H. rewrite <- (firstn_skipn n l) in H. eapply NoDup_app_remove_r; eauto.
Qed.

Lemma update_cpus_state_perm : forall L cpus,
  Permutation (update_cpus_state L cpus)
    (map id (firstn (length cpus) L) ++ repeat (-1) (length cpus - length L)%nat).
Proof.
  intros L cpus. unfold update_cpus_state. rewrite stable_sort_perm.
  rewrite fill_cpus_spec. reflexivity.
Qed.

Lemma update_cpus_state_occupied : forall L cpus,
  NoDup (map id L) ->
  NoDup (occupied (update_cpus_state L cpus)) /\
  (forall c, In c (update_cpus_state L cpus) -> c <> -1 ->
     exists p, In p (firstn (length cpus) L) /\ id p = c) /\
  (forall p, In p (firstn (length cpus) L) -> id p <> -1 ->
     In (id p) (update_cpus_state L cpus)).
Proof.
  intros L cpus Hnd. pose proof (update_cpus_state_perm L cpus) as HP.
  split; [|split].
  - unfold occupied. eapply Permutation_NoDup.
    { symmetry. apply Permutation_filter'. exact HP. }
    rewrite filter_app. rewrite (filter_none _ (repeat _ _)).
    2:{ intros z Hz. apply repeat_spec in Hz. subst. reflexivity. }
    rewrite app_nil_r. apply NoDup_filter. rewrite <- firstn_map.
    now apply NoDup_firstn.
  - intros c Hc Hc1. apply (Permutation_in _ HP) in Hc.
    apply in_app_or in Hc as [Hc|Hc].
    + apply in_map_iff in Hc as [p [<- Hp]]. eauto.
    + apply repeat_spec in Hc. contradiction.
  - intros p Hp Hp1. apply (Permutation_in _ (Permutation_sym HP)).
    apply in_or_app. left. now apply in_map.
Qed.

(** What holds after a successful assign. *)
Lemma schedule_post : forall m r L cpus L2 cpus',
  NoDup (map id L) -> schedule m r L cpus = Ok (L2, cpus') ->
  Permutation L2 L /\ cpus' = update_cpus_state L2 cpus /\
  NoDup (occupied cpus') /\
  (forall c, In c cpus' -> c <> -1 -> exists p, In p L2 /\ id p = c) /\
  update_proc_list cpus' L2 = Ok (flat_map (charge (occupied cpus')) L2).
Proof.
  intros m r L cpus L2 cpus' Hnd Hs.
  destruct (schedule_shape _ _ _ _ _ _ Hs) as [Hperm ->].
  assert (Hnd2 : NoDup (map id L2))
    by (eapply Permutation_NoDup; [apply Permutation_map; symmetry; exact Hperm|exact Hnd]).
  destruct (update_cpus_state_occupied L2 cpus Hnd2) as [Hocc [Hin _]].
  assert (Hfound : forall c, In c (update_cpus_state L2 cpus) -> c <> -1 ->
                     exists p, In p L2 /\ id p = c).
  { intros c Hc Hc1. destruct (Hin c Hc Hc1) as [p [Hp Hpc]].
    exists p. split; [eapply In_firstn; eauto|exact Hpc]. }
  split; [exact Hperm|split; [reflexivity|split; [exact Hocc|split; [exact Hfound|]]]].
  apply update_proc_list_charge; assumption.
Qed.

(** ** C9: the slots after assign *)

(** C9. For every policy and every ready list with distinct ids (ids are
    unique among live processes), when assign succeeds: the reordered ready
    list is a permutation of the ready list, the occupied slot ids are
    pairwise distinct, each is the id of a process of the reordered ready
    list, and the accounting loop finds every occupied slot's process: it
    never runs past the end of the list. *)
Theorem assign_slots_valid : forall m r L cpus L2 cpus',
  NoDup (map id L) -> schedule m r L cpus = Ok (L2, cpus') ->
  Permutation L2 L /\
  NoDup (occupied cpus') /\
  (forall c, In c cpus' -> c <> -1 -> exists p, In p L2 /\ id p = c) /\
  update_proc_list cpus' L2 = Ok (flat_map (charge (occupied cpus')) L2).
Proof.
  intros m r L cpus L2 cpus' Hnd Hs.
  destruct (schedule_post m r L cpus L2 cpus' Hnd Hs) as [Hp [_ H]].
  split; [exact Hp|exact H].
Qed.

Lemma assign_slots_valid_witness :
  NoDup (map id [mk_proc 4 0 3 3; mk_proc 2 0 1 1]) /\
  schedule 1 1 [mk_proc 4 0 3 3; mk_proc 2 0 1 1] [-1; -1]
    = Ok ([mk_proc 2 0 1 1; mk_proc 4 0 3 3], [2; 4]) /\
  NoDup (occupied [2; 4]) /\
  update_proc_list [2; 4] [mk_proc 2 0 1 1; mk_proc 4 0 3 3]
    = Ok (flat_map (charge (occupied [2; 4])) [mk_proc 2 0 1 1; mk_proc 4 0 3 3]).
Proof.
  assert (Hnd : NoDup (map id [mk_proc 4 0 3 3; mk_proc 2 0 1 1]))
    by (repeat constructor; simpl; lia).
  assert (Hs : schedule 1 1 [mk_proc 4 0 3 3; mk_proc 2 0 1 1] [-1; -1]
               = Ok ([mk_proc 2 0 1 1; mk_proc 4 0 3 3], [2; 4])) by reflexivity.
  destruct (assign_slots_valid 1 1 [mk_proc 4 0 3 3; mk_proc 2 0 1 1] [-1; -1]
              [mk_proc 2 0 1 1; mk_proc 4 0 3 3] [2; 4] Hnd Hs)
    as [_ [Hocc [_ Hu]]].
  split; [exact Hnd|split; [exact Hs|split; [exact Hocc|exact Hu]]].
Defined.

(** ** C10: a process with execution time 0 *)

(** C10. A process admitted with execution time 0 has remaining time 0;
    when it occupies a slot, the unsigned decrement wraps its remaining
    time to 2^32 - 1, which is not 0, so the process stays in the ready
    list. *)
Theorem exec_time_zero_wraps : forall m r L cpus i pr L2 cpus',
  0 <= m <= 6 -> (m = 3 -> 0 < r) -> NoDup (map id L) -> i <> -1 ->
  In (read_proc (i, pr, 0)) L ->
  schedule m r L cpus = Ok (L2, cpus') ->
  In i cpus' ->
  remaining_time (read_proc (i, pr, 0)) = 0 /\
  exists L3, update_proc_list cpus' L2 = Ok L3 /\
             In (mk_proc i pr 0 (UINT_MOD - 1)) L3 /\
             ~ In (read_proc (i, pr, 0)) L3.
Proof.
  intros m r L cpus i pr L2 cpus' Hm Hr Hnd Hi Hp Hs Hin.
  split; [reflexivity|].
  destruct (schedule_post m r L cpus L2 cpus' Hnd Hs)
    as [Hperm [_ [Hocc [Hfound Hupd]]]].
  eexists; split; [exact Hupd|].
  assert (Hnd2 : NoDup (map id L2))
    by (eapply Permutation_NoDup; [apply Permutation_map; symmetry; exact Hperm|exact Hnd]).
  assert (Hp2 : In (read_proc (i, pr, 0)) L2)
    by (apply (Permutation_in _ (Permutation_sym Hperm)); exact Hp).
  assert (Hch : charge (occupied cpus') (read_proc (i, pr, 0))
                = [mk_proc i pr 0 (UINT_MOD - 1)]).
  { unfold charge. simpl.
    replace (existsb (Z.eqb i) (occupied cpus')) with true.
    2:{ symmetry. apply existsb_exists. exists i. split; [|apply Z.eqb_refl].
        unfold occupied. apply filter_In. split; [exact Hin|].
        apply negb_true_iff, Z.eqb_neq. exact Hi. }
    reflexivity. }
  split.
  - apply in_flat_map. exists (read_proc (i, pr, 0)). split; [exact Hp2|].
    rewrite Hch. left; reflexivity.
  - intros Hin3. apply in_flat_map in Hin3 as [q [Hq Hq3]].
    assert (Hqi : id q = i) by (rewrite <- (charge_ids _ _ _ Hq3); reflexivity).
    assert (q = read_proc (i, pr, 0)).
    { pose proof (filter_id_unique i L2 _ Hnd2 Hp2 eq_refl) as Hu.
      assert (Hq' : In q (filter (fun q => id q =? i) L2))
        by (apply filter_In; split; [exact Hq|now apply Z.eqb_eq]).
      rewrite Hu in Hq'. destruct Hq' as [<-|[]]; reflexivity. }
    subst q. rewrite Hch in Hq3. destruct Hq3 as [Heq|[]]. discriminate.
Qed.

Lemma exec_time_zero_wraps_witness :
  0 <= 0 <= 6 /\ (0 = 3 -> 0 < 1) /\ NoDup (map id [mk_proc 7 0 0 0]) /\ 7 <> -1 /\
  In (read_proc (7, 0, 0)) [mk_proc 7 0 0 0] /\
  schedule 0 1 [mk_proc 7 0 0 0] [0] = Ok ([mk_proc 7 0 0 0], [7]) /\
  In 7 [7] /\
  exists L3, update_proc_list [7] [mk_proc 7 0 0 0] = Ok L3 /\
             In (mk_proc 7 0 0 4294967295) L3.
Proof.
  assert (Hnd : NoDup (map id [mk_proc 7 0 0 0])) by (repeat constructor; simpl; lia).
  assert (Hs : schedule 0 1 [mk_proc 7 0 0 0] [0] = Ok ([mk_proc 7 0 0 0], [7]))
    by reflexivity.
  destruct (exec_time_zero_wraps 0 1 [mk_proc 7 0 0 0] [0] 7 0 [mk_proc 7 0 0 0] [7]
              ltac:(lia) ltac:(lia) Hnd ltac:(lia) (or_introl eq_refl) Hs (or_introl eq_refl))
    as [_ [L3 [Hu [Hin _]]]].
  split; [lia|]. split; [lia|]. split; [exact Hnd|]. split; [lia|].
  split; [left; reflexivity|]. split; [exact Hs|]. split; [left; reflexivity|].
  exists L3. split; [exact Hu|exact Hin].
Defined.

(** ** One tick *)

Lemma tick_spec_sched : forall cfg st L0 t rd rest L1 cpus',
  read_input st = (L0, t, rd, rest) -> NoDup (map id L0) ->
  schedule (method cfg) (rr_time cfg) L0 (cpus_state st) = Ok (L1, cpus') ->
  Permutation L1 L0 /\ cpus' = update_cpus_state L1 (cpus_state st) /\
  NoDup (occupied cpus') /\
  (forall c, In c cpus' -> c <> -1 -> exists p, In p L1 /\ id p = c) /\
  tick cfg st
    = Ok ((t, cpus'),
          mk_state (flat_map (charge (occupied cpus')) L1) cpus'
                   ((t + 1) mod UINT_MOD) rd rest).
Proof.
  intros cfg st L0 t rd rest L1 cpus' Hread Hnd Hs.
  destruct (schedule_post _ _ _ _ _ _ Hnd Hs) as [Hp [Hc [Ho [Hf Hu]]]].
  split; [exact Hp|split; [exact Hc|split; [exact Ho|split; [exact Hf|]]]].
  unfold tick. rewrite Hread, Hs, Hu. reflexivity.
Qed.

Lemma tick_spec : forall cfg st L0 t rd rest,
  0 <= method cfg <= 6 ->
  (method cfg = 3 -> 0 < rr_time cfg /\
     forall c, In c (cpus_state st) -> c <> -1 -> In c (map id L0)) ->
  read_input st = (L0, t, rd, rest) -> NoDup (map id L0) ->
  exists L1, Permutation L1 L0 /\
    schedule (method cfg) (rr_time cfg) L0 (cpus_state st)
      = Ok (L1, update_cpus_state L1 (cpus_state st)) /\
    NoDup (occupied (update_cpus_state L1 (cpus_state st))) /\
    (forall c, In c (update_cpus_state L1 (cpus_state st)) -> c <> -1 ->
       exists p, In p L1 /\ id p = c) /\
    tick cfg st
      = Ok ((t, update_cpus_state L1 (cpus_state st)),
            mk_state (flat_map (charge (occupied (update_cpus_state L1 (cpus_state st)))) L1)
                     (update_cpus_state L1 (cpus_state st))
                     ((t + 1) mod UINT_MOD) rd rest).
Proof.
  intros cfg st L0 t rd rest Hm Hr Hread Hnd.
  destruct (schedule_ok (method cfg) (rr_time cfg) L0 (cpus_state st) Hm Hr Hnd)
    as [L1 [cpus' Hs]].
  destruct (tick_spec_sched cfg st L0 t rd rest L1 cpus' Hread Hnd Hs)
    as [Hp [-> [Ho [Hf Ht]]]].
  exists L1. split; [exact Hp|]. split; [exact Hs|]. split; [exact Ho|].
  split; [exact Hf|exact Ht].
Qed.

Lemma read_input_group : forall st t tuples rest,
  read st = true -> input st = Some (t, tuples) :: rest ->
  read_input st = (proc_list st ++ map read_proc tuples, t, true, rest).
Proof.
  intros st t tuples rest Hr Hi. unfold read_input. rewrite Hr, Hi. reflexivity.
Qed.

(** ** C2: the timestamp of an arrival group *)

(** C2 (counterexample). FCFS, one CPU: the first group is stamped 5 while
    the simulated tick is 0. No error is raised: the tick takes the time 5,
    and the run goes on to DONE. *)
Lemma C2_timestamp_not_checked :
  time (init_state (mk_config 0 1 1) [Some (5, [(1, 0, 1)])]) = 0 /\
  run 5 (mk_config 0 1 1) (init_state (mk_config 0 1 1) [Some (5, [(1, 0, 1)])])
  = ([(5, [1]); (6, [-1])], Done (mk_state [] [-1] 7 false [])).
Proof. split; reflexivity. Qed.

(** C2 (amended). When a tick reads an arrival group, [ss >> time] sets the
    time to the group's timestamp (an unsigned value): the tick does not
    depend on the time it had before, it raises no error (for a valid
    method, distinct ids in the ready list, and under round robin a positive
    slice and slots holding ids of the ready list), the record it prints
    carries the timestamp, and the next tick is the timestamp plus one
    (modulo 2^32). *)
Theorem arrival_time_adopted : forall cfg st t tuples rest,
  0 <= method cfg <= 6 ->
  (method cfg = 3 -> 0 < rr_time cfg /\
     forall c, In c (cpus_state st) -> c <> -1 ->
       In c (map id (proc_list st ++ map read_proc tuples))) ->
  0 <= t < UINT_MOD ->
  read st = true -> input st = Some (t, tuples) :: rest ->
  NoDup (map id (proc_list st ++ map read_proc tuples)) ->
  (forall t0, tick cfg (mk_state (proc_list st) (cpus_state st) t0 true (input st))
              = tick cfg st) /\
  exists cpus st', tick cfg st = Ok ((t, cpus), st') /\
                   time st' = (t + 1) mod UINT_MOD /\ read st' = true.
Proof.
  intros cfg st t tuples rest Hm Hr Ht Hrd Hin Hnd. split.
  - intros t0. unfold tick. rewrite (read_input_group st t tuples rest Hrd Hin).
    unfold read_input. simpl. rewrite Hin. reflexivity.
  - destruct (tick_spec cfg st _ t true rest Hm Hr
                (read_input_group st t tuples rest Hrd Hin) Hnd)
      as [L1 [_ [_ [_ [_ Ht1]]]]].
    rewrite Ht1. do 2 eexists. split; [reflexivity|]. split; reflexivity.
Qed.

Lemma arrival_time_adopted_witness :
  let cfg := mk_config 3 1 1 in
  let st := mk_state [mk_proc 4 0 3 2] [4] 2 true [Some (5, [(1, 0, 1)])] in
  0 <= method cfg <= 6 /\
  (method cfg = 3 -> 0 < rr_time cfg /\
     forall c, In c (cpus_state st) -> c <> -1 ->
       In c (map id (proc_list st ++ map read_proc [(1, 0, 1)]))) /\
  0 <= 5 < UINT_MOD /\
  read st = true /\ input st = Some (5, [(1, 0, 1)]) :: [] /\
  NoDup (map id (proc_list st ++ map read_proc [(1, 0, 1)])) /\
  exists cpus st', tick cfg st = Ok ((5, cpus), st') /\ time st' = 6.
Proof.
  intros cfg st.
  assert (Hm : 0 <= method cfg <= 6) by (simpl; lia).
  assert (Hr : method cfg = 3 -> 0 < rr_time cfg /\
                 forall c, In c (cpus_state st) -> c <> -1 ->
                   In c (map id (proc_list st ++ map read_proc [(1, 0, 1)]))).
  { intros _. split; [simpl; lia|]. simpl. intros c [<-|[]] _. left; reflexivity. }
  assert (Ht : 0 <= 5 < UINT_MOD) by (unfold UINT_MOD; lia).
  assert (Hnd : NoDup (map id (proc_list st ++ map read_proc [(1, 0, 1)])))
    by (simpl; repeat constructor; simpl; lia).
  split; [exact Hm|]. split; [exact Hr|]. split; [exact Ht|]. split; [reflexivity|].
  split; [reflexivity|]. split; [exact Hnd|].
  destruct (arrival_time_adopted cfg st 5 [(1, 0, 1)] [] Hm Hr Ht eq_refl eq_refl Hnd)
    as [_ [cpus [st' [Ht1 [Htime _]]]]].
  exists cpus, st'. split; [exact Ht1|]. rewrite Htime. reflexivity.
Defined.

(** ** The skip loop of the non-preemptive policies *)

Lemma NoDup_app_disjoint {A} (l1 l2 : list A) x :
  NoDup (l1 ++ l2) -> In x l1 -> In x l2 -> False.
Proof.
  induction l1 as [|y t IH]; intros Hnd H1 H2; [destruct H1|].
  simpl in Hnd. apply NoDup_cons_iff in Hnd as [Hy Hnd].
  destruct H1 as [->|H1]; [apply Hy, in_or_app; now right|eauto].
Qed.

Lemma read_input_extends : forall st L0 t rd rest,
  read_input st = (L0, t, rd, rest) -> exists R, L0 = proc_list st ++ R.
Proof.
  intros st L0 t rd rest H. unfold read_input in H.
  destruct (read st); [destruct (input st) as [|[[t' tu]|] r]|];
    injection H as <- _ _ _; eauto using app_nil_r.
Qed.

Lemma count_id_split : forall c cs L, ~ In c cs ->
  length (filter (fun p => existsb (Z.eqb (id p)) (c :: cs)) L)
  = (count_id c L + length (filter (fun p => existsb (Z.eqb (id p)) cs) L))%nat.
Proof.
  intros c cs L Hc. unfold count_id.
  induction L as [|p t IH]; [reflexivity|]. cbn [filter].
  change (existsb (Z.eqb (id p)) (c :: cs))
    with (Z.eqb (id p) c || existsb (Z.eqb (id p)) cs).
  destruct (Z.eqb (id p) c) eqn:E; cbn [orb].
  - apply Z.eqb_eq in E.
    replace (existsb (Z.eqb (id p)) cs) with false.
    + cbn [length]. rewrite IH. reflexivity.
    + symmetry. apply not_true_iff_false. intros Hin.
      apply existsb_exists in Hin as [c' [Hc' Hq]]. apply Z.eqb_eq in Hq.
      apply Hc. congruence.
  - destruct (existsb (Z.eqb (id p)) cs); cbn [length]; rewrite IH; lia.
Qed.

Lemma skip_running_ge : forall L C j k,
  NoDup (map id L) -> NoDup C -> ~ In (-1) C -> (k <= length L)%nat ->
  (Nat.min (length L) (k + length (filter (fun p => existsb (Z.eqb (id p)) C) L))
   <= skip_running L (C ++ repeat (-1)%Z j) k)%nat.
Proof.
  intros L C j. induction C as [|c cs IH]; intros k Hnd HC Hm1 Hk.
  - rewrite (filter_none _ L) by (intros; reflexivity).
    simpl. destruct j as [|j]; simpl; [lia|].
    rewrite orb_true_r. lia.
  - pose proof HC as HC0. apply NoDup_cons_iff in HC as [Hc HC].
    rewrite count_id_split by exact Hc.
    cbn [app skip_running].
    destruct (Nat.eqb k (length L)) eqn:E1; cbn [orb].
    { apply Nat.eqb_eq in E1. lia. }
    replace (c =? -1) with false
      by (symmetry; apply Z.eqb_neq; intros ->; apply Hm1; left; reflexivity).
    apply Nat.eqb_neq in E1.
    pose proof (count_id_le_1 c L Hnd).
    specialize (IH (k + count_id c L)%nat Hnd HC
                  ltac:(intros Hin; apply Hm1; right; exact Hin) ltac:(lia)).
    lia.
Qed.

Lemma sort_after_running_prefix : forall cmp L cpus L',
  sort_after_running cmp L cpus = Ok L' ->
  exists T, L' = firstn (skip_running L cpus 0) L ++ T.
Proof.
  intros cmp L cpus L' H. unfold sort_after_running in H.
  destruct (Nat.leb _ _); [|discriminate]. injection H as <-. eauto.
Qed.

Lemma update_cpus_state_length : forall L cpus,
  length (update_cpus_state L cpus) = length cpus.
Proof.
  intros L cpus. unfold update_cpus_state.
  rewrite (Permutation_length (stable_sort_perm _ _ _)). apply fill_cpus_length.
Qed.

Lemma occupied_sorted_ids : forall occ j,
  Forall (fun z => 0 <= z) occ -> occupied (occ ++ repeat (-1) j) = occ.
Proof.
  intros occ j H. unfold occupied. rewrite filter_app.
  rewrite (filter_none _ (repeat _ _))
    by (intros z Hz; apply repeat_spec in Hz; subst; reflexivity).
  rewrite app_nil_r. apply filter_all. intros z Hz.
  rewrite Forall_forall in H. apply negb_true_iff, Z.eqb_neq. specialize (H z Hz). lia.
Qed.

Lemma Forall_perm_ids : forall L L', Permutation L' L ->
  Forall (fun p => 0 <= id p) L -> Forall (fun p => 0 <= id p) L'.
Proof.
  intros L L' HP H. rewrite Forall_forall in *. intros p Hp.
  apply H. eapply Permutation_in; eauto.
Qed.

Lemma sorted_ids_nonneg : forall L n,
  Forall (fun p => 0 <= id p) L ->
  Forall (fun z => 0 <= z) (stable_sort Z.ltb (map id (firstn n L))).
Proof.
  intros L n H. rewrite Forall_forall in *. intros z Hz.
  apply (Permutation_in _ (stable_sort_perm _ _ _)) in Hz.
  apply in_map_iff in Hz as [p [<- Hp]]. apply H. eapply In_firstn; eauto.
Qed.

Lemma firstn_prefix {A} (n : nat) (S X : list A) :
  (length S <= n)%nat -> exists Y, firstn n (S ++ X) = S ++ Y.
Proof.
  intros H. rewrite firstn_app, firstn_all2 by exact H. eauto.
Qed.

(** ** C3: non-preemption *)

(** C3 (counterexample). SJF, two CPUs: process -5 (execution time 3)
    arrives at tick 0 and the slot sort puts it after the idle slot
    ([-1; -5]); at tick 1 the skip loop stops at that idle slot, so -5
    (remaining time 2) is sorted with the new processes 1 and 2 and loses
    its slot. *)
Lemma C3_negative_id_preempted :
  run 10 (mk_config 1 2 1)
      (init_state (mk_config 1 2 1) [Some (0, [(-5, 0, 3)]); Some (1, [(1, 0, 1); (2, 0, 1)])])
  = ([(0, [-1; -5]); (1, [1; 2]); (2, [-1; -5]); (3, [-1; -5]); (4, [-1; -1])],
     Done (mk_state [] [-1; -1] 5 false [])).
Proof. reflexivity. Qed.

(** C3 (amended). Under SJF (method 1) and non-preemptive Priority-FCFS
    (method 6), when the ready lists have non-negative ids unique among
    the live processes: a process that occupies a slot at a tick and is
    still in the ready list after that tick's accounting (its remaining time
    is positive) occupies a slot at the next tick. By induction it keeps a
    slot at every tick until it completes. *)
Theorem nonpreemptive_keeps_slot : forall cfg st t cpus st' c,
  (method cfg = 1 \/ method cfg = 6) ->
  admissible st -> tick cfg st = Ok ((t, cpus), st') ->
  In c cpus -> c <> -1 -> In c (map id (proc_list st')) ->
  admissible st' ->
  exists t' cpus2 st2, tick cfg st' = Ok ((t', cpus2), st2) /\ In c cpus2.
Proof.
  intros cfg st t cpus st' c Hm Hadm Ht Hc Hc1 HcL Hadm'.
  assert (Hm' : 0 <= method cfg <= 6) by lia.
  assert (Hr : forall P : Prop, method cfg = 3 -> P) by (intros P E; exfalso; lia).
  unfold admissible in Hadm.
  destruct (read_input st) as [[[L0 t0] rd] rest] eqn:Hread.
  destruct Hadm as [Hpos Hnd].
  destruct (tick_spec cfg st L0 t0 rd rest Hm' (Hr _) Hread Hnd)
    as [L1 [Hperm [_ [_ [_ Ht1]]]]].
  rewrite Ht in Ht1. injection Ht1 as Et Ecpus Est. subst t cpus st'.
  set (N := length (cpus_state st)) in *.
  assert (Hpos1 : Forall (fun p => 0 <= id p) L1) by (eapply Forall_perm_ids; eauto).
  assert (Hnd1 : NoDup (map id L1))
    by (eapply Permutation_NoDup; [apply Permutation_map; symmetry; exact Hperm|exact Hnd]).
  set (C' := stable_sort Z.ltb (map id (firstn N L1))) in *.
  assert (HC'pos : Forall (fun z => 0 <= z) C') by apply sorted_ids_nonneg, Hpos1.
  assert (HU : update_cpus_state L1 (cpus_state st) = C' ++ repeat (-1) (N - length L1)%nat)
    by (apply update_cpus_state_shape; exact Hpos1).
  set (U := update_cpus_state L1 (cpus_state st)) in *.
  assert (HoccU : occupied U = C') by (rewrite HU; apply occupied_sorted_ids, HC'pos).
  rewrite HoccU in *. simpl in HcL.
  assert (HC'perm : Permutation C' (map id (firstn N L1))) by apply stable_sort_perm.
  assert (HndC' : NoDup C').
  { eapply Permutation_NoDup; [symmetry; exact HC'perm|].
    rewrite <- firstn_map. now apply NoDup_firstn. }
  assert (Hm1C' : ~ In (-1) C').
  { intros Hin. rewrite Forall_forall in HC'pos. specialize (HC'pos _ Hin). lia. }
  set (S := flat_map (charge C') (firstn N L1)).
  set (X := flat_map (charge C') (skipn N L1)).
  assert (HL2 : flat_map (charge C') L1 = S ++ X)
    by (unfold S, X; rewrite <- flat_map_app, firstn_skipn; reflexivity).
  rewrite HL2 in HcL, Hadm' |- *.
  (* the process of [c] is one of the first [N] and is in [S] *)
  assert (HcS : exists q, In q S /\ id q = c).
  { assert (HcC : In c C').
    { rewrite HU in Hc. apply in_app_or in Hc as [Hc|Hc]; [exact Hc|].
      apply repeat_spec in Hc. contradiction. }
    apply (Permutation_in _ HC'perm) in HcC.
    apply in_map_iff in HcL as [q [Hqc Hq]].
    apply in_app_or in Hq as [Hq|Hq]; [eauto|exfalso].
    unfold X in Hq. apply in_flat_map in Hq as [p' [Hp' Hq]].
    rewrite (charge_ids _ _ _ Hq) in Hqc.
    rewrite <- (firstn_skipn N L1), map_app in Hnd1.
    eapply (NoDup_app_disjoint _ _ c Hnd1); [exact HcC|].
    rewrite <- Hqc. now apply in_map. }
  destruct HcS as [q [HqS Hqc]].
  assert (HSids : forall p, In p S -> In (id p) C').
  { intros p Hp. unfold S in Hp. apply in_flat_map in Hp as [p0 [Hp0 Hp]].
    rewrite (charge_ids _ _ _ Hp).
    apply (Permutation_in _ (Permutation_sym HC'perm)). now apply in_map. }
  assert (HndS : NoDup (map id S))
    by (unfold S; apply NoDup_flat_map_charge; rewrite <- firstn_map; now apply NoDup_firstn).
  assert (HSlen : (length S <= N)%nat).
  { rewrite <- (length_map id S).
    transitivity (length C').
    - apply NoDup_incl_length; [exact HndS|].
      intros z Hz. apply in_map_iff in Hz as [p [<- Hp]]. now apply HSids.
    - rewrite (Permutation_length HC'perm), length_map, length_firstn. lia. }
  (* the next tick *)
  unfold admissible in Hadm'.
  destruct (read_input (mk_state (S ++ X) U ((t0 + 1) mod UINT_MOD) rd rest))
    as [[[L0' t1] rd1] rest1] eqn:Hread'.
  destruct Hadm' as [Hpos' Hnd'].
  destruct (read_input_extends _ _ _ _ _ Hread') as [R HL0']. simpl in HL0'.
  destruct (tick_spec cfg (mk_state (S ++ X) U ((t0 + 1) mod UINT_MOD) rd rest)
              L0' t1 rd1 rest1 Hm' (Hr _) Hread' Hnd')
    as [L1' [Hperm' [Hs' [_ [_ Ht2]]]]].
  simpl in Hs', Ht2.
  rewrite Ht2. do 3 eexists. split; [reflexivity|].
  (* the schedule keeps [S] in front *)
  assert (Hsa : exists cmp, sort_after_running cmp L0' U = Ok L1').
  { destruct Hm as [E|E]; rewrite E in Hs'; simpl in Hs';
      unfold sjf, prio_fcfs_no_preemption, bind in Hs'.
    - destruct (sort_after_running compare_exec_time L0' U) eqn:Esa; [|discriminate].
      injection Hs' as <- _. eauto.
    - destruct (sort_after_running compare_priority L0' U) eqn:Esa; [|discriminate].
      injection Hs' as <- _. eauto. }
  destruct Hsa as [cmp Hsa].
  destruct (sort_after_running_prefix _ _ _ _ Hsa) as [T HT].
  set (k := skip_running L0' U 0) in *.
  assert (HSk : (length S <= k)%nat).
  { pose proof (skip_running_ge L0' C' (N - length L1) 0 Hnd' HndC' Hm1C' ltac:(lia)) as Hge.
    rewrite <- HU in Hge. fold U k in Hge.
    assert (length S <= length (filter (fun p => existsb (Z.eqb (id p)) C') L0'))%nat.
    { rewrite HL0', <- app_assoc, filter_app, length_app.
      rewrite (filter_all _ S).
      - lia.
      - intros p Hp. apply existsb_exists. exists (id p).
        split; [now apply HSids|apply Z.eqb_refl]. }
    assert (length S <= length L0')%nat
      by (rewrite HL0', <- app_assoc, length_app; lia).
    lia. }
  rewrite HL0', <- app_assoc in HT.
  destruct (firstn_prefix k S (X ++ R) HSk) as [Y HY].
  rewrite HY, <- app_assoc in HT.
  assert (HlenU : length U = N) by apply update_cpus_state_length.
  assert (Hnd1' : NoDup (map id L1'))
    by (eapply Permutation_NoDup; [apply Permutation_map; symmetry; exact Hperm'|exact Hnd']).
  destruct (update_cpus_state_occupied L1' U Hnd1') as [_ [_ Hkeep]].
  rewrite <- Hqc. apply Hkeep; [|congruence].
  rewrite HT, HlenU.
  destruct (firstn_prefix N S (Y ++ T) HSlen) as [Z' ->].
  apply in_or_app. left. exact HqS.
Qed.

Lemma nonpreemptive_keeps_slot_witness :
  let cfg := mk_config 1 2 1 in
  let st := init_state cfg [Some (0, [(4, 0, 3); (6, 0, 2)]); Some (1, [(2, 0, 1)])] in
  (method cfg = 1 \/ method cfg = 6) /\ admissible st /\
  tick cfg st = Ok ((0, [4; 6]), mk_state [mk_proc 6 0 2 1; mk_proc 4 0 3 2] [4; 6] 1 true
                                          [Some (1, [(2, 0, 1)])]) /\
  In 4 [4; 6] /\ 4 <> -1 /\ In 4 (map id [mk_proc 6 0 2 1; mk_proc 4 0 3 2]) /\
  admissible (mk_state [mk_proc 6 0 2 1; mk_proc 4 0 3 2] [4; 6] 1 true
                       [Some (1, [(2, 0, 1)])]) /\
  exists t' cpus2 st2,
    tick cfg (mk_state [mk_proc 6 0 2 1; mk_proc 4 0 3 2] [4; 6] 1 true
                       [Some (1, [(2, 0, 1)])]) = Ok ((t', cpus2), st2) /\ In 4 cpus2.
Proof.
  intros cfg st.
  assert (Ha : admissible st)
    by (unfold admissible; simpl; split; repeat constructor; simpl; lia).
  assert (Ht : tick cfg st = Ok ((0, [4; 6]), mk_state [mk_proc 6 0 2 1; mk_proc 4 0 3 2]
                                  [4; 6] 1 true [Some (1, [(2, 0, 1)])]))
    by reflexivity.
  assert (Ha' : admissible (mk_state [mk_proc 6 0 2 1; mk_proc 4 0 3 2] [4; 6] 1 true
                                     [Some (1, [(2, 0, 1)])]))
    by (unfold admissible; simpl; split; repeat constructor; simpl; lia).
  assert (Hin : In 4 (map id [mk_proc 6 0 2 1; mk_proc 4 0 3 2])) by (right; left; reflexivity).
  split; [left; reflexivity|]. split; [exact Ha|]. split; [exact Ht|].
  split; [left; reflexivity|]. split; [lia|]. split; [exact Hin|]. split; [exact Ha'|].
  exact (nonpreemptive_keeps_slot cfg st 0 [4; 6] _ 4 (or_introl eq_refl) Ha Ht
           (or_introl eq_refl) ltac:(lia) Hin Ha').
Defined.

(** ** Sums of remaining times *)

Lemma rem_sum_app : forall f l1 l2,
  rem_sum f (l1 ++ l2) = rem_sum f l1 + rem_sum f l2.
Proof.
  intros f l1 l2. induction l1 as [|p t IH]; simpl; [reflexivity|].
  rewrite IH. lia.
Qed.

Lemma rem_sum_perm : forall f l1 l2, Permutation l1 l2 -> rem_sum f l1 = rem_sum f l2.
Proof. intros f l1 l2 H. induction H; simpl; lia. Qed.


Lemma dec_uint_ok : forall r, 1 <= r < UINT_MOD -> dec_uint r = r - 1.
Proof.
  intros r Hr. unfold dec_uint. apply Z.mod_small. lia.
Qed.

Lemma rem_sum_charge : forall f S L,
  Forall (fun p => 1 <= remaining_time p < UINT_MOD) L ->
  rem_sum f (flat_map (charge S) L)
  = rem_sum f L
    - Z.of_nat (length (filter (fun p => f (id p) && existsb (Z.eqb (id p)) S) L)).
Proof.
  intros f S L H. induction H as [|p t Hp _ IH]; [reflexivity|].
  cbn [flat_map filter]. rewrite rem_sum_app, IH.
  unfold charge. destruct (existsb (Z.eqb (id p)) S).
  - rewrite dec_uint_ok by exact Hp.
    destruct (remaining_time p - 1 =? 0) eqn:E0; [apply Z.eqb_eq in E0|];
      simpl; destruct (f (id p)); simpl; rewrite ?Zpos_P_of_succ_nat; lia.
  - simpl; destruct (f (id p)); simpl; rewrite ?Zpos_P_of_succ_nat; lia.
Qed.

Lemma map_filter_id : forall (g : Z -> bool) L,
  map id (filter (fun p => g (id p)) L) = filter g (map id L).
Proof.
  intros g L. induction L as [|p t IH]; simpl; [reflexivity|].
  destruct (g (id p)); simpl; rewrite IH; reflexivity.
Qed.

Lemma filter_occ_length : forall f occ L,
  NoDup occ -> NoDup (map id L) -> (forall c, In c occ -> In c (map id L)) ->
  length (filter (fun p => f (id p) && existsb (Z.eqb (id p)) occ) L)
  = length (filter f occ).
Proof.
  intros f occ L Hocc Hnd Hsub.
  rewrite <- (length_map id), (map_filter_id (fun c => f c && existsb (Z.eqb c) occ)).
  apply Permutation_length, NoDup_Permutation; try apply NoDup_filter; auto.
  intros c. rewrite !filter_In, andb_true_iff, existsb_exists. split.
  - intros [_ [Hf [c' [Hc' Hcc']]]]. apply Z.eqb_eq in Hcc'. subst c'. auto.
  - intros [Hc Hf]. split; [auto|]. split; [exact Hf|].
    exists c. split; [exact Hc|apply Z.eqb_refl].
Qed.

Lemma filter_eqb_NoDup : forall x l, NoDup l ->
  length (filter (Z.eqb x) l) = if existsb (Z.eqb x) l then 1%nat else 0%nat.
Proof.
  intros x l H. induction H as [|c t Hc _ IH]; [reflexivity|].
  simpl. destruct (x =? c) eqn:E; simpl.
  - apply Z.eqb_eq in E. subst c.
    rewrite filter_none; [reflexivity|].
    intros y Hy. apply Z.eqb_neq. intros <-. contradiction.
  - exact IH.
Qed.

Lemma existsb_occupied : forall x cpus, x <> -1 ->
  existsb (Z.eqb x) (occupied cpus) = existsb (Z.eqb x) cpus.
Proof.
  intros x cpus Hx. unfold occupied. induction cpus as [|c t IH]; [reflexivity|].
  simpl. destruct (c =? -1) eqn:E; simpl; rewrite IH; [|reflexivity].
  apply Z.eqb_eq in E. subst c. replace (x =? -1) with false
    by (symmetry; now apply Z.eqb_neq). reflexivity.
Qed.

Lemma sleeping_occupied : forall l,
  all_cpus_sleeping l = true <-> occupied l = [].
Proof.
  intros l. unfold all_cpus_sleeping, occupied.
  induction l as [|c t IH]; simpl; [tauto|].
  destruct (c =? -1); simpl; [exact IH|].
  split; intros H; discriminate.
Qed.


Lemma rem_sum_absent : forall x L, ~ In x (map id L) -> rem_sum (Z.eqb x) L = 0.
Proof.
  intros x L H. induction L as [|p t IH]; simpl; [reflexivity|].
  simpl in H. replace (x =? id p) with false by (symmetry; apply Z.eqb_neq; auto).
  rewrite IH; auto.
Qed.

Lemma rem_sum_unique : forall p L, NoDup (map id L) -> In p L ->
  rem_sum (Z.eqb (id p)) L = remaining_time p.
Proof.
  intros p L. induction L as [|q t IH]; intros Hnd Hp; [destruct Hp|].
  simpl in Hnd. apply NoDup_cons_iff in Hnd as [Hq Hnd]. simpl.
  destruct Hp as [<-|Hp].
  - rewrite Z.eqb_refl, rem_sum_absent by exact Hq. lia.
  - replace (id p =? id q) with false.
    + rewrite IH; auto.
    + symmetry. apply Z.eqb_neq. intros E. apply Hq. rewrite <- E. now apply in_map.
Qed.

(** ** The per-tick invariant *)

Lemma NoDup_flat_map_charge_app : forall S L P,
  NoDup (map id (L ++ P)) -> NoDup (map id (flat_map (charge S) L ++ P)).
Proof.
  intros S L P. induction L as [|x t IH]; intros Hnd; [exact Hnd|].
  simpl in Hnd. apply NoDup_cons_iff in Hnd as [Hx Hnd].
  cbn [flat_map]. rewrite <- app_assoc.
  assert (Hsub : forall z, In z (map id (flat_map (charge S) t ++ P)) -> In z (map id (t ++ P))).
  { intros z Hz. rewrite map_app in Hz |- *. apply in_app_or in Hz as [Hz|Hz].
    - apply in_or_app. left. now apply map_id_flat_map_charge in Hz.
    - apply in_or_app. now right. }
  unfold charge at 1.
  destruct (existsb _ S); [destruct (_ =? 0)|]; simpl; auto;
    constructor; auto.
Qed.

Lemma Forall_charge : forall S L, Forall proc_ok L -> Forall proc_ok (flat_map (charge S) L).
Proof.
  intros S L H. induction H as [|p t Hp _ IH]; [constructor|].
  cbn [flat_map]. apply Forall_app. split; [|exact IH].
  unfold charge. destruct Hp as [Hid Hr].
  destruct (existsb _ S); [|constructor; [split|constructor]; auto].
  rewrite dec_uint_ok by exact Hr.
  destruct (remaining_time p - 1 =? 0) eqn:E; [constructor|].
  apply Z.eqb_neq in E. constructor; [|constructor].
  split; simpl; [exact Hid|lia].
Qed.

Lemma Forall_removelast_tail : forall (P : line -> Prop) x l,
  Forall P (removelast (x :: l)) -> Forall P (removelast l).
Proof.
  intros P x [|y l] H; simpl in *; [constructor|].
  inversion H; assumption.
Qed.

Lemma future_read_input : forall st L0 t rd rest,
  (read st = true -> Forall (fun l => l <> None) (removelast (input st))) ->
  read_input st = (L0, t, rd, rest) ->
  future st = L0 ++ (if rd then pending rest else []) /\
  (rd = true -> Forall (fun l => l <> None) (removelast rest)) /\
  (read st = false -> rd = false) /\
  (read st = true ->
     (if rd then 1 + Z.of_nat (length rest) else 0) + 1
     <= 1 + Z.of_nat (length (input st))).
Proof.
  intros st L0 t rd rest Hwf H. unfold future, read_input in *.
  destruct (read st).
  - specialize (Hwf eq_refl).
    destruct (input st) as [|[[t' tu]|] r]; injection H as <- <- <- <-.
    + rewrite !app_nil_r. repeat split; intros; try discriminate; simpl; lia.
    + repeat split.
      * change (pending (Some (t', tu) :: r)) with (map read_proc tu ++ pending r).
        apply app_assoc.
      * intros _. eapply Forall_removelast_tail; eauto.
      * intros; discriminate.
      * intros _. cbn [length]. rewrite Nat2Z.inj_succ. lia.
    + destruct r as [|l r].
      * simpl. rewrite !app_nil_r. repeat split; intros; try discriminate; simpl; lia.
      * simpl in Hwf. inversion Hwf as [|? ? Hn]. now contradiction Hn.
  - injection H as <- <- <- <-. repeat split; intros; discriminate.
Qed.

Lemma update_not_sleeping : forall L cpus,
  (1 <= length cpus)%nat -> Forall (fun p => 0 <= id p) L -> L <> [] ->
  all_cpus_sleeping (update_cpus_state L cpus) = false.
Proof.
  intros L cpus Hn Hpos HL. destruct L as [|p t]; [contradiction|].
  apply not_true_iff_false. intros Hs.
  apply sleeping_occupied in Hs.
  assert (Hin : In (id p) (update_cpus_state (p :: t) cpus)).
  { apply (Permutation_in _ (Permutation_sym (update_cpus_state_perm _ _))).
    apply in_or_app. left. destruct (length cpus) as [|n]; [lia|].
    simpl. left. reflexivity. }
  assert (Hocc : In (id p) (occupied (update_cpus_state (p :: t) cpus))).
  { unfold occupied. apply filter_In. split; [exact Hin|].
    inversion Hpos as [|? ? Hp]. apply negb_true_iff, Z.eqb_neq. lia. }
  rewrite Hs in Hocc. destruct Hocc.
Qed.

Lemma tick_inv : forall cfg st, inv cfg st ->
  (forall L0 t rd rest, read_input st = (L0, t, rd, rest) ->
     exists L1 cpus', schedule (method cfg) (rr_time cfg) L0 (cpus_state st)
                      = Ok (L1, cpus')) ->
  exists t cpus st',
    tick cfg st = Ok ((t, cpus), st') /\ inv cfg st' /\ cpus_state st' = cpus /\
    NoDup (occupied cpus) /\
    (forall f, rem_sum f (future st') + Z.of_nat (length (filter f (occupied cpus)))
               = rem_sum f (future st)) /\
    (loop_cond st = true -> measure st' + 1 <= measure st).
Proof.
  intros cfg st Hinv Hsched.
  destruct Hinv as [Hcfg [Hlen [Hnd [Hok [Hrd Hsl]]]]].
  destruct Hcfg as [Hm [Hr Hn]].
  destruct (read_input st) as [[[L0 t] rd] rest] eqn:Hread.
  destruct (future_read_input st L0 t rd rest Hrd Hread) as [Hfut [Hrest [Hrf Hrt]]].
  set (P := if rd then pending rest else []) in *.
  rewrite Hfut in Hnd, Hok.
  assert (Hnd0 : NoDup (map id L0))
    by (rewrite map_app in Hnd; eapply NoDup_app_remove_r; eauto).
  destruct (Hsched L0 t rd rest eq_refl) as [L1 [cpus' Hsch]].
  destruct (tick_spec_sched cfg st L0 t rd rest L1 cpus' Hread Hnd0 Hsch)
    as [Hperm [Ecpus [Hocc [Hfound Ht]]]].
  subst cpus'. clear Hsch.
  set (U := update_cpus_state L1 (cpus_state st)) in *.
  set (occ := occupied U) in *.
  set (L2 := flat_map (charge occ) L1).
  exists t, U, (mk_state L2 U ((t + 1) mod UINT_MOD) rd rest).
  assert (HpermP : Permutation (L1 ++ P) (L0 ++ P)) by (apply Permutation_app_tail; exact Hperm).
  assert (Hnd1 : NoDup (map id (L1 ++ P)))
    by (eapply Permutation_NoDup; [apply Permutation_map; symmetry; exact HpermP|exact Hnd]).
  assert (Hok1 : Forall proc_ok (L1 ++ P)).
  { rewrite Forall_forall in *. intros p Hp. apply Hok.
    eapply Permutation_in; [exact HpermP|exact Hp]. }
  apply Forall_app in Hok1 as [HokL1 HokP].
  assert (Hfut' : future (mk_state L2 U ((t + 1) mod UINT_MOD) rd rest) = L2 ++ P)
    by reflexivity.
  assert (Hsub : forall c, In c occ -> In c (map id L1)).
  { intros c Hc. unfold occ, occupied in Hc. apply filter_In in Hc as [Hc Hc1].
    apply negb_true_iff, Z.eqb_neq in Hc1.
    destruct (Hfound c Hc Hc1) as [p [Hp <-]]. now apply in_map. }
  assert (HndL1 : NoDup (map id L1))
    by (rewrite map_app in Hnd1; eapply NoDup_app_remove_r; eauto).
  assert (Hsum : forall f, rem_sum f (L2 ++ P) + Z.of_nat (length (filter f occ))
                           = rem_sum f (L0 ++ P)).
  { intros f. rewrite <- (rem_sum_perm f _ _ HpermP), !rem_sum_app.
    unfold L2. rewrite rem_sum_charge
      by (eapply Forall_impl; [|exact HokL1]; intros p [_ Hp]; exact Hp).
    rewrite filter_occ_length by assumption. lia. }
  split; [exact Ht|]. split; [|split; [reflexivity|split; [exact Hocc|split]]].
  - split; [split; [exact Hm|split; [exact Hr|exact Hn]]|].
    split; [simpl; unfold U; rewrite update_cpus_state_length; exact Hlen|].
    rewrite Hfut'. split; [now apply NoDup_flat_map_charge_app|].
    split; [apply Forall_app; split; [now apply Forall_charge|exact HokP]|].
    split; [simpl; exact Hrest|].
    simpl. intros _ HsU.
    destruct L1 as [|p1 t1].
    + reflexivity.
    + exfalso. unfold U in HsU. rewrite update_not_sleeping in HsU; [discriminate| | |].
      * rewrite Hlen. exact Hn.
      * rewrite Forall_forall in HokL1 |- *. intros p Hp. apply HokL1, Hp.
      * discriminate.
  - intros f. rewrite Hfut'. rewrite Hsum. rewrite Hfut. reflexivity.
  - intros Hlc. unfold measure. rewrite Hfut', Hfut. cbn [read input cpus_state].
    pose proof (Hsum (fun _ => true)) as Hs.
    rewrite (filter_all (fun _ => true)) in Hs by reflexivity.
    assert (HsU : (if all_cpus_sleeping U then 0 else 1) <= Z.of_nat (length occ)).
    { destruct (all_cpus_sleeping U) eqn:E; [lia|].
      destruct occ as [|c o] eqn:Eo; [|simpl; lia].
      apply sleeping_occupied in Eo. congruence. }
    unfold loop_cond in Hlc.
    destruct (read st) eqn:Er.
    + specialize (Hrt eq_refl).
      destruct (all_cpus_sleeping (cpus_state st)); lia.
    + rewrite (Hrf eq_refl). simpl in Hlc.
      destruct (all_cpus_sleeping (cpus_state st)); simpl in Hlc; [discriminate|]. lia.
Qed.

(** A successful tick keeps the invariant. *)
Lemma tick_inv_step : forall cfg st t cpus st', inv cfg st ->
  tick cfg st = Ok ((t, cpus), st') ->
  inv cfg st' /\ cpus_state st' = cpus /\
  NoDup (occupied cpus) /\
  (forall f, rem_sum f (future st') + Z.of_nat (length (filter f (occupied cpus)))
             = rem_sum f (future st)) /\
  (loop_cond st = true -> measure st' + 1 <= measure st).
Proof.
  intros cfg st t cpus st' Hinv Ht.
  assert (Hsched : forall L0 t0 rd rest, read_input st = (L0, t0, rd, rest) ->
            exists L1 cpus', schedule (method cfg) (rr_time cfg) L0 (cpus_state st)
                             = Ok (L1, cpus')).
  { intros L0 t0 rd rest Hread. unfold tick in Ht. rewrite Hread in Ht.
    destruct (schedule (method cfg) (rr_time cfg) L0 (cpus_state st))
      as [[L1 cpus']|e]; [eauto|discriminate]. }
  destruct (tick_inv cfg st Hinv Hsched) as [t' [cpus' [st'' [Ht' H]]]].
  rewrite Ht in Ht'. injection Ht' as <- <- <-. exact H.
Qed.


(** ** Runs *)

Lemma pending_fresh : forall inp p, In p (pending inp) ->
  remaining_time p = exec_time p.
Proof.
  intros inp p Hp. unfold pending in Hp. apply in_flat_map in Hp as [l [_ Hp]].
  destruct l as [[t tu]|]; [|destruct Hp].
  apply in_map_iff in Hp as [[[i pr] e] [<- _]]. reflexivity.
Qed.

Lemma init_inv : forall cfg inp, wf_config cfg -> wf_input inp ->
  inv cfg (init_state cfg inp).
Proof.
  intros cfg inp Hcfg [Hlines [Hnd Hok]].
  unfold inv, init_state, future. simpl.
  split; [exact Hcfg|]. split; [apply repeat_length|].
  split; [exact Hnd|]. split.
  - rewrite Forall_forall in *. intros p Hp. destruct (Hok p Hp) as [Hid He].
    split; [exact Hid|]. rewrite (pending_fresh inp p Hp). exact He.
  - split; [intros _; exact Hlines|]. intros H; discriminate.
Qed.

Lemma run_done : forall fuel cfg st, loop_cond st = false ->
  run fuel cfg st = ([], Done st).
Proof. intros [|f] cfg st H; simpl; rewrite H; reflexivity. Qed.

Lemma done_future : forall cfg st, inv cfg st -> loop_cond st = false ->
  future st = [] /\ proc_list st = [] /\ read st = false /\
  all_cpus_sleeping (cpus_state st) = true.
Proof.
  intros cfg st [_ [_ [_ [_ [_ Hsl]]]]] Hlc. unfold loop_cond in Hlc.
  apply orb_false_iff in Hlc as [Hr Hs]. apply negb_false_iff in Hs.
  specialize (Hsl Hr Hs). unfold future. rewrite Hsl, Hr. auto.
Qed.


Lemma appearances_cons : forall x r rs,
  appearances x (r :: rs)
  = ((if existsb (Z.eqb x) (snd r) then 1 else 0) + appearances x rs)%nat.
Proof. intros x r rs. unfold appearances. simpl. destruct (existsb _ _); reflexivity. Qed.

Lemma appearances_pos : forall x recs,
  (0 < appearances x recs)%nat <-> exists r, In r recs /\ In x (snd r).
Proof.
  intros x recs. unfold appearances. split.
  - destruct (filter (fun r => existsb (Z.eqb x) (snd r)) recs) as [|r l] eqn:E;
      simpl; [lia|]. intros _.
    assert (Hr : In r (filter (fun r => existsb (Z.eqb x) (snd r)) recs))
      by (rewrite E; left; reflexivity).
    apply filter_In in Hr as [Hr Hx]. apply existsb_exists in Hx as [y [Hy Hxy]].
    apply Z.eqb_eq in Hxy. subst y. eauto.
  - intros [r [Hr Hx]].
    assert (Hin : In r (filter (fun r => existsb (Z.eqb x) (snd r)) recs)).
    { apply filter_In. split; [exact Hr|]. apply existsb_exists.
      exists x. split; [exact Hx|apply Z.eqb_refl]. }
    destruct (filter (fun r => existsb (Z.eqb x) (snd r)) recs);
      [destruct Hin|simpl; lia].
Qed.

Lemma run_count : forall fuel cfg st recs st_f, inv cfg st ->
  run fuel cfg st = (recs, Done st_f) ->
  forall x, x <> -1 -> Z.of_nat (appearances x recs) = rem_sum (Z.eqb x) (future st).
Proof.
  induction fuel as [|f IH]; intros cfg st recs st_f Hinv Hrun x Hx.
  - simpl in Hrun. destruct (loop_cond st) eqn:Lc; [discriminate|].
    injection Hrun as <- _. destruct (done_future cfg st Hinv Lc) as [-> _]. reflexivity.
  - simpl in Hrun. destruct (loop_cond st) eqn:Lc.
    + destruct (tick cfg st) as [[[t cpus] st']|e] eqn:Ht; [|discriminate].
      destruct (tick_inv_step cfg st t cpus st' Hinv Ht)
        as [Hinv' [Hcs [Hocc [Hsum _]]]].
      destruct (run f cfg st') as [rs o] eqn:Er.
      injection Hrun as <- ->.
      rewrite appearances_cons, Nat2Z.inj_add.
      rewrite (IH cfg st' rs st_f Hinv' Er x Hx).
      rewrite <- (Hsum (Z.eqb x)).
      rewrite (filter_eqb_NoDup x _ Hocc), existsb_occupied by exact Hx.
      cbn [snd]. destruct (existsb (Z.eqb x) cpus); lia.
    + injection Hrun as <- _. destruct (done_future cfg st Hinv Lc) as [-> _]. reflexivity.
Qed.


(** ** Round-robin runs *)







(** ** C5: conservation *)

(** C5. Over a complete run (one that reaches DONE) of a well-formed input
    (valid configuration with at least one CPU; arrival lines, the last one
    possibly blank; ids non-negative and distinct; execution times between
    1 and 2^32 - 1): an id other than -1 is in a slot of some printed line
    exactly when it is the id of an input process, and each input process
    is in a slot of exactly executionTime printed lines. *)
Theorem run_conservation : forall cfg inp fuel recs st,
  wf_config cfg -> wf_input inp ->
  run fuel cfg (init_state cfg inp) = (recs, Done st) ->
  (forall x, x <> -1 ->
     (In x (map id (pending inp)) <-> exists r, In r recs /\ In x (snd r))) /\
  (forall p, In p (pending inp) -> Z.of_nat (appearances (id p) recs) = exec_time p).
Proof.
  intros cfg inp fuel recs st Hcfg Hinp Hrun.
  pose proof (init_inv cfg inp Hcfg Hinp) as Hinv.
  pose proof (run_count fuel cfg _ recs st Hinv Hrun) as Hc.
  assert (Hfut : future (init_state cfg inp) = pending inp) by reflexivity.
  rewrite Hfut in Hc.
  destruct Hinp as [_ [Hnd Hok]].
  assert (Hexec : forall p, In p (pending inp) -> Z.of_nat (appearances (id p) recs) = exec_time p).
  { intros p Hp. rewrite Forall_forall in Hok. destruct (Hok p Hp) as [Hid _].
    rewrite Hc by lia. rewrite rem_sum_unique by assumption.
    apply (pending_fresh inp p Hp). }
  split; [|exact Hexec].
  intros x Hx. rewrite <- appearances_pos. split.
  - intros Hin. apply in_map_iff in Hin as [p [<- Hp]].
    pose proof (Hexec p Hp) as He. rewrite Forall_forall in Hok.
    destruct (Hok p Hp) as [_ Hb]. lia.
  - intros Hpos. destruct (in_dec Z.eq_dec x (map id (pending inp))) as [Hin|Hin];
      [exact Hin|].
    specialize (Hc x Hx). rewrite rem_sum_absent in Hc by exact Hin. lia.
Qed.

Lemma run_conservation_witness :
  let cfg := mk_config 0 1 1 in
  let inp := [Some (0, [(1, 0, 2); (2, 0, 1)]); None] in
  wf_config cfg /\ wf_input inp /\
  run 10 cfg (init_state cfg inp)
    = ([(0, [1]); (1, [1]); (2, [2]); (3, [-1])], Done (mk_state [] [-1] 4 false [])) /\
  Z.of_nat (appearances 1 [(0, [1]); (1, [1]); (2, [2]); (3, [-1])]) = 2.
Proof.
  intros cfg inp.
  assert (Hc : wf_config cfg) by (unfold wf_config; simpl; lia).
  assert (Hi : wf_input inp).
  { unfold wf_input, UINT_MOD; simpl. split; [repeat constructor; discriminate|].
    split; [repeat constructor; simpl; lia|]. repeat constructor; simpl; lia. }
  assert (Hr : run 10 cfg (init_state cfg inp)
               = ([(0, [1]); (1, [1]); (2, [2]); (3, [-1])], Done (mk_state [] [-1] 4 false [])))
    by reflexivity.
  split; [exact Hc|]. split; [exact Hi|]. split; [exact Hr|].
  destruct (run_conservation cfg inp 10 _ _ Hc Hi Hr) as [_ Hexec].
  apply (Hexec (mk_proc 1 0 2 2)). left; reflexivity.
Defined.

(** ** C6: termination *)




(** * Further properties of the code *)

(** ** Helper lemmas *)

Lemma StronglySorted_app_rel {A} (R : A -> A -> Prop) l1 l2 x y :
  StronglySorted R (l1 ++ l2) -> In x l1 -> In y l2 -> R x y.
Proof.
  induction l1 as [|a t IH]; simpl; intros Hs Hx Hy; [contradiction|].
  apply StronglySorted_inv in Hs as [Hs Hall].
  destruct Hx as [<-|Hx].
  - rewrite Forall_forall in Hall. apply Hall, in_or_app. right. exact Hy.
  - apply IH; assumption.
Qed.

Lemma StronglySorted_split {A} (R : A -> A -> Prop) l n x y :
  StronglySorted R l -> In x (firstn n l) -> In y (skipn n l) -> R x y.
Proof.
  intros Hs Hx Hy. rewrite <- (firstn_skipn n l) in Hs.
  exact (StronglySorted_app_rel R _ _ x y Hs Hx Hy).
Qed.

Section ZKey.
Variable key : proc_data -> Z.
Variable cmp : proc_data -> proc_data -> bool.
Hypothesis Hcmp : forall a b, cmp a b = (key a <? key b).

Lemma key_sorted_le : forall l,
  StronglySorted (fun a b => key a <= key b) (stable_sort cmp l).
Proof.
  intros l. apply (StronglySorted_weaken (kle proc_data Z key Z.ltb)).
  - intros a b _ _. unfold kle. intros H. apply Z.ltb_ge in H. exact H.
  - apply (stable_sort_sorted _ _ key Z.ltb Zltb_strict cmp Hcmp).
Qed.

Lemma key_filter_stable : forall l r,
  filter (fun p => key p =? r) (stable_sort cmp l) = filter (fun p => key p =? r) l.
Proof.
  intros l r.
  pose proof (filter_stable_sort _ _ key Z.ltb Z.eq_dec Zltb_strict cmp Hcmp r l) as H.
  assert (E : forall x, same_key proc_data Z key Z.eq_dec r x = (key x =? r)).
  { intros x. unfold same_key.
    destruct (Z.eq_dec (key x) r) as [E|E]; symmetry;
      [apply Z.eqb_eq|apply Z.eqb_neq]; exact E. }
  rewrite !(filter_ext _ _ E) in H. exact H.
Qed.

Lemma sort_after_running_key : forall L cpus, NoDup (map id L) ->
  let k := skip_running L cpus 0 in
  exists T, sort_after_running cmp L cpus = Ok (firstn k L ++ T) /\
    Permutation T (skipn k L) /\
    StronglySorted (fun a b => key a <= key b) T /\
    (forall r, filter (fun p => key p =? r) T = filter (fun p => key p =? r) (skipn k L)).
Proof.
  intros L cpus HN k.
  assert (Hk : (k <= length L)%nat) by (apply skip_running_le; [exact HN|lia]).
  exists (stable_sort cmp (skipn k L)).
  unfold sort_after_running. change (skip_running L cpus 0) with k.
  rewrite (proj2 (Nat.leb_le _ _) Hk).
  split; [reflexivity|]. split; [apply stable_sort_perm|].
  split; [apply key_sorted_le|]. intros r. apply key_filter_stable.
Qed.
End ZKey.

Lemma update_cpus_state_first {R : proc_data -> proc_data -> Prop} : forall L cpus,
  StronglySorted R L ->
  Permutation (update_cpus_state L cpus)
    (map id (firstn (length cpus) L) ++ repeat (-1) (length cpus - length L)%nat) /\
  (forall p q, In p (firstn (length cpus) L) -> In q (skipn (length cpus) L) -> R p q).
Proof.
  intros L cpus Hs. split; [apply update_cpus_state_perm|].
  intros p q Hp Hq. exact (StronglySorted_split R L _ p q Hs Hp Hq).
Qed.

Lemma skip_running_repeat : forall L x N k,
  x <> -1 -> (count_id x L <= 1)%nat -> (k <= length L)%nat ->
  skip_running L (repeat x N) k = Nat.min (k + N * count_id x L) (length L).
Proof.
  intros L x N. induction N as [|N IH]; intros k Hx Hc Hk; simpl.
  - lia.
  - destruct (Nat.eqb_spec k (length L)) as [->|Hne]; simpl; [lia|].
    rewrite (proj2 (Z.eqb_neq x (-1)) Hx). simpl.
    rewrite IH by (auto; lia). lia.
Qed.

Lemma count_id_existsb : forall c L, NoDup (map id L) ->
  count_id c L = if existsb (fun p => id p =? c) L then 1%nat else 0%nat.
Proof.
  intros c L HN. unfold count_id.
  destruct (existsb (fun p => id p =? c) L) eqn:E.
  - apply existsb_exists in E as [p [Hp Hid]]. apply Z.eqb_eq in Hid.
    rewrite (filter_id_unique c L p HN Hp Hid). reflexivity.
  - rewrite filter_none; [reflexivity|]. intros x Hx.
    destruct (id x =? c) eqn:Ex; [|reflexivity].
    assert (existsb (fun p => id p =? c) L = true)
      by (apply existsb_exists; exists x; auto).
    congruence.
Qed.

Lemma sort_after_running_zero_slots : forall cmp L N, NoDup (map id L) ->
  let m := if existsb (fun p => id p =? 0) L then Nat.min N (length L) else 0%nat in
  sort_after_running cmp L (repeat 0 N) = Ok (firstn m L ++ stable_sort cmp (skipn m L)).
Proof.
  intros cmp L N HN m. unfold sort_after_running.
  rewrite skip_running_repeat by (try apply count_id_le_1; auto; lia).
  rewrite (count_id_existsb 0 L HN).
  replace (Nat.min (0 + N * (if existsb (fun p => (id p =? 0)%Z) L then 1 else 0)) (length L))%nat
    with m by (unfold m; destruct (existsb _ L); lia).
  assert (Hm : (m <= length L)%nat) by (unfold m; destruct (existsb _ L); lia).
  rewrite (proj2 (Nat.leb_le _ _) Hm). reflexivity.
Qed.

Lemma NoDup_map_id_eq : forall L p q,
  NoDup (map id L) -> In p L -> In q L -> id p = id q -> p = q.
Proof.
  induction L as [|a t IH]; simpl; intros p q HN Hp Hq Hid; [contradiction|].
  inversion HN as [|? ? Hna HNt]; subst.
  destruct Hp as [<-|Hp], Hq as [<-|Hq]; auto.
  - exfalso. apply Hna. rewrite Hid. apply in_map. exact Hq.
  - exfalso. apply Hna. rewrite <- Hid. apply in_map. exact Hp.
Qed.

Lemma charge_id : forall S p q, In q (charge S p) -> id q = id p.
Proof.
  intros S p q. unfold charge.
  destruct (existsb _ S); [destruct (_ =? 0)|]; simpl;
    intros H; repeat destruct H as [<-|H]; try contradiction; reflexivity.
Qed.

Lemma filter_idle_charge : forall S L,
  filter (fun p => negb (existsb (Z.eqb (id p)) S)) (flat_map (charge S) L)
  = filter (fun p => negb (existsb (Z.eqb (id p)) S)) L.
Proof.
  intros S L. induction L as [|p t IH]; [reflexivity|].
  cbn [flat_map]. rewrite filter_app, IH. cbn [filter]. unfold charge.
  destruct (existsb (Z.eqb (id p)) S) eqn:E; [destruct (_ =? 0)|];
    simpl; rewrite ?E; reflexivity.
Qed.

Lemma rr_loop_zero : forall cpus L,
  rr_loop 0 cpus L = Ok L \/ rr_loop 0 cpus L = Err Undefined_behaviour.
Proof.
  induction cpus as [|c cs IH]; intros L; simpl; [auto|].
  destruct (c =? -1); [auto|].
  destruct (split_at_id c L) as [[[pre p] post]|]; [|auto].
  destruct (0 <? _); [auto|apply IH].
Qed.

Lemma run_tick : forall f cfg st r st',
  loop_cond st = true -> tick cfg st = Ok (r, st') ->
  run (S f) cfg st = (r :: fst (run f cfg st'), snd (run f cfg st')).
Proof.
  intros f cfg st r st' Hc Ht. cbn [run]. rewrite Hc, Ht.
  destruct (run f cfg st'); reflexivity.
Qed.

Lemma schedule_no_cpus : forall m r L, 0 <= m <= 6 ->
  exists L2, schedule m r L [] = Ok (L2, []) /\ Permutation L2 L.
Proof.
  intros m r L Hm.
  assert (Hex : exists L2 c, schedule m r L [] = Ok (L2, c)).
  { assert (m = 0 \/ m = 1 \/ m = 2 \/ m = 3 \/ m = 4 \/ m = 5 \/ m = 6) as Hc by lia.
    repeat destruct Hc as [->|Hc]; try (subst; do 2 eexists; reflexivity). }
  destruct Hex as [L2 [c Hs]].
  destruct (schedule_shape _ _ _ _ _ _ Hs) as [Hp ->].
  exists L2. split; [exact Hs|exact Hp].
Qed.

Lemma run_no_read_input : forall fuel cfg L c t i1 i2,
  fst (run fuel cfg (mk_state L c t false i1))
  = fst (run fuel cfg (mk_state L c t false i2)).
Proof.
  induction fuel as [|f IH]; intros cfg L c t i1 i2; cbn [run];
    unfold loop_cond; cbn [read cpus_state orb]; destruct (negb (all_cpus_sleeping c)); try reflexivity.
  unfold tick, read_input. cbn [read input proc_list time cpus_state].
  destruct (schedule (method cfg) (rr_time cfg) L c) as [[L1 cpus]|e]; [|reflexivity].
  destruct (update_proc_list cpus L1) as [L2|e]; [|reflexivity].
  pose proof (IH cfg L2 cpus ((t + 1) mod UINT_MOD) i1 i2) as H.
  destruct (run f cfg (mk_state L2 cpus ((t + 1) mod UINT_MOD) false i1)) as [rs1 o1].
  destruct (run f cfg (mk_state L2 cpus ((t + 1) mod UINT_MOD) false i2)) as [rs2 o2].
  simpl in *. congruence.
Qed.

(** ** SRTF and Priority-FCFS: the order of the ready list *)

(** X1. SRTF never fails; it returns a permutation of the ready list sorted
    by remaining time, in which the processes of equal remaining time keep
    their order. *)
Theorem srtf_sorted_stable : forall L cpus,
  exists L', srtf L cpus = Ok (L', update_cpus_state L' cpus) /\
    Permutation L' L /\
    StronglySorted (fun a b => remaining_time a <= remaining_time b) L' /\
    (forall r, filter (fun p => remaining_time p =? r) L'
               = filter (fun p => remaining_time p =? r) L).
Proof.
  intros L cpus. exists (stable_sort compare_remaining_time L).
  split; [reflexivity|]. split; [apply stable_sort_perm|].
  split; [apply (key_sorted_le remaining_time); reflexivity|].
  intros r. apply (key_filter_stable remaining_time). reflexivity.
Qed.

(** X2. Priority-FCFS never fails; it returns a permutation of the ready
    list sorted by priority, in which the processes of equal priority keep
    their arrival order. *)
Theorem prio_fcfs_sorted_stable : forall L cpus,
  exists L', prio_fcfs L cpus = Ok (L', update_cpus_state L' cpus) /\
    Permutation L' L /\
    StronglySorted (fun a b => priority a <= priority b) L' /\
    (forall v, filter (fun p => priority p =? v) L'
               = filter (fun p => priority p =? v) L).
Proof.
  intros L cpus. exists (stable_sort compare_priority L).
  split; [reflexivity|]. split; [apply stable_sort_perm|].
  split; [apply (key_sorted_le priority); reflexivity|].
  intros v. apply (key_filter_stable priority). reflexivity.
Qed.

(** ** Preemptive policies: who gets a CPU *)

(** X3. Under SRTF with N slots, the slots hold the ids of the first N
    processes of the reordered list (then idle slots), and every process
    given a slot has a remaining time no larger than any process left
    waiting. *)
Theorem srtf_slots_least_remaining : forall L cpus L' cpus',
  srtf L cpus = Ok (L', cpus') ->
  Permutation cpus'
    (map id (firstn (length cpus) L') ++ repeat (-1) (length cpus - length L)%nat) /\
  (forall p q, In p (firstn (length cpus) L') -> In q (skipn (length cpus) L') ->
     remaining_time p <= remaining_time q).
Proof.
  intros L cpus L' cpus' H. unfold srtf in H. injection H as <- <-.
  rewrite <- (Permutation_length (stable_sort_perm _ compare_remaining_time L)).
  apply update_cpus_state_first. apply (key_sorted_le remaining_time). reflexivity.
Qed.

Lemma srtf_slots_least_remaining_witness :
  srtf [mk_proc 1 0 5 5; mk_proc 2 0 3 1; mk_proc 3 0 4 2] [0]
    = Ok ([mk_proc 2 0 3 1; mk_proc 3 0 4 2; mk_proc 1 0 5 5], [2]) /\
  Permutation [2] [2] /\
  (forall p q, In p [mk_proc 2 0 3 1] -> In q [mk_proc 3 0 4 2; mk_proc 1 0 5 5] ->
     remaining_time p <= remaining_time q).
Proof.
  assert (H : srtf [mk_proc 1 0 5 5; mk_proc 2 0 3 1; mk_proc 3 0 4 2] [0]
    = Ok ([mk_proc 2 0 3 1; mk_proc 3 0 4 2; mk_proc 1 0 5 5], [2])) by reflexivity.
  split; [exact H|].
  destruct (srtf_slots_least_remaining _ _ _ _ H) as [Hp Hl].
  split; [exact Hp|exact Hl].
Defined.

(** X4. Under Priority-FCFS with N slots, the slots hold the ids of the
    first N processes of the reordered list (then idle slots), and every
    process given a slot has a priority value no larger than any process
    left waiting. *)
Theorem prio_fcfs_slots_least_priority : forall L cpus L' cpus',
  prio_fcfs L cpus = Ok (L', cpus') ->
  Permutation cpus'
    (map id (firstn (length cpus) L') ++ repeat (-1) (length cpus - length L)%nat) /\
  (forall p q, In p (firstn (length cpus) L') -> In q (skipn (length cpus) L') ->
     priority p <= priority q).
Proof.
  intros L cpus L' cpus' H. unfold prio_fcfs in H. injection H as <- <-.
  rewrite <- (Permutation_length (stable_sort_perm _ compare_priority L)).
  apply update_cpus_state_first. apply (key_sorted_le priority). reflexivity.
Qed.

Lemma prio_fcfs_slots_least_priority_witness :
  prio_fcfs [mk_proc 1 3 5 5; mk_proc 2 1 3 3; mk_proc 3 2 4 4] [0; 0]
    = Ok ([mk_proc 2 1 3 3; mk_proc 3 2 4 4; mk_proc 1 3 5 5], [2; 3]) /\
  Permutation [2; 3] [2; 3] /\
  (forall p q, In p [mk_proc 2 1 3 3; mk_proc 3 2 4 4] -> In q [mk_proc 1 3 5 5] ->
     priority p <= priority q).
Proof.
  assert (H : prio_fcfs [mk_proc 1 3 5 5; mk_proc 2 1 3 3; mk_proc 3 2 4 4] [0; 0]
    = Ok ([mk_proc 2 1 3 3; mk_proc 3 2 4 4; mk_proc 1 3 5 5], [2; 3])) by reflexivity.
  split; [exact H|].
  destruct (prio_fcfs_slots_least_priority _ _ _ _ H) as [Hp Hl].
  split; [exact Hp|exact Hl].
Defined.

(** X5. Under Priority-SRTF with N slots, the slots hold the ids of the
    first N processes of the reordered list (then idle slots), and every
    process given a slot comes before any process left waiting in the
    order (priority, remaining time): a smaller priority value, or the same
    priority and a remaining time no larger. *)
Theorem prio_srtf_slots_least : forall L cpus L' cpus',
  prio_srtf L cpus = Ok (L', cpus') ->
  Permutation cpus'
    (map id (firstn (length cpus) L') ++ repeat (-1) (length cpus - length L)%nat) /\
  (forall p q, In p (firstn (length cpus) L') -> In q (skipn (length cpus) L') ->
     priority p < priority q \/
     (priority p = priority q /\ remaining_time p <= remaining_time q)).
Proof.
  intros L cpus L' cpus' H. unfold prio_srtf in H. injection H as <- <-.
  rewrite sort_remaining_then_priority.
  rewrite <- (Permutation_length (stable_sort_perm _ compare_priority_then_remaining L)).
  apply update_cpus_state_first.
  apply (StronglySorted_weaken (kle proc_data (Z * Z) prio_rem lex_ltb)).
  - intros a b _ _. unfold kle, lex_ltb, prio_rem. simpl. intros Hab.
    apply orb_false_iff in Hab as [H1 H2]. apply Z.ltb_ge in H1.
    apply andb_false_iff in H2 as [H2|H2];
      [apply Z.eqb_neq in H2|apply Z.ltb_ge in H2]; lia.
  - apply (stable_sort_sorted _ _ prio_rem lex_ltb lex_strict). reflexivity.
Qed.

Lemma prio_srtf_slots_least_witness :
  prio_srtf [mk_proc 1 1 5 5; mk_proc 2 1 3 3; mk_proc 3 0 4 4] [0; 0]
    = Ok ([mk_proc 3 0 4 4; mk_proc 2 1 3 3; mk_proc 1 1 5 5], [2; 3]) /\
  (forall p q, In p [mk_proc 3 0 4 4; mk_proc 2 1 3 3] -> In q [mk_proc 1 1 5 5] ->
     priority p < priority q \/
     (priority p = priority q /\ remaining_time p <= remaining_time q)).
Proof.
  assert (H : prio_srtf [mk_proc 1 1 5 5; mk_proc 2 1 3 3; mk_proc 3 0 4 4] [0; 0]
    = Ok ([mk_proc 3 0 4 4; mk_proc 2 1 3 3; mk_proc 1 1 5 5], [2; 3])) by reflexivity.
  split; [exact H|].
  exact (proj2 (prio_srtf_slots_least _ _ _ _ H)).
Defined.

(** ** Non-preemptive policies: the skip loop *)

(** X6. SJF on a ready list of distinct ids never fails: it keeps the first
    k processes in place, k being where the skip loop over the slots stops,
    and replaces the rest by a permutation sorted by execution time in
    which the processes of equal execution time keep their order. *)
Theorem sjf_prefix_sorted_tail : forall L cpus, NoDup (map id L) ->
  let k := skip_running L cpus 0 in
  exists T, sjf L cpus = Ok (firstn k L ++ T, update_cpus_state (firstn k L ++ T) cpus) /\
    Permutation T (skipn k L) /\
    StronglySorted (fun a b => exec_time a <= exec_time b) T /\
    (forall e, filter (fun p => exec_time p =? e) T
               = filter (fun p => exec_time p =? e) (skipn k L)).
Proof.
  intros L cpus HN k.
  destruct (sort_after_running_key exec_time compare_exec_time (fun _ _ => eq_refl)
              L cpus HN) as [T [Hs HT]].
  exists T. split; [|exact HT]. unfold sjf. rewrite Hs. reflexivity.
Qed.

Lemma sjf_prefix_sorted_tail_witness :
  NoDup (map id [mk_proc 1 0 9 8; mk_proc 2 0 7 7; mk_proc 3 0 2 2]) /\
  exists T, sjf [mk_proc 1 0 9 8; mk_proc 2 0 7 7; mk_proc 3 0 2 2] [1]
    = Ok ([mk_proc 1 0 9 8] ++ T, update_cpus_state ([mk_proc 1 0 9 8] ++ T) [1]) /\
    Permutation T [mk_proc 2 0 7 7; mk_proc 3 0 2 2].
Proof.
  assert (HN : NoDup (map id [mk_proc 1 0 9 8; mk_proc 2 0 7 7; mk_proc 3 0 2 2]))
    by (simpl; repeat constructor; simpl; lia).
  split; [exact HN|].
  destruct (sjf_prefix_sorted_tail _ [1] HN) as [T [Hs [Hp _]]].
  exists T. split; [exact Hs|exact Hp].
Defined.

(** X7. Non-preemptive Priority-FCFS on a ready list of distinct ids never
    fails: it keeps the first k processes in place, k being where the skip
    loop over the slots stops, and replaces the rest by a permutation
    sorted by priority in which the processes of equal priority keep their
    order. *)
Theorem prio_fcfs_no_preemption_prefix_sorted_tail : forall L cpus, NoDup (map id L) ->
  let k := skip_running L cpus 0 in
  exists T, prio_fcfs_no_preemption L cpus
      = Ok (firstn k L ++ T, update_cpus_state (firstn k L ++ T) cpus) /\
    Permutation T (skipn k L) /\
    StronglySorted (fun a b => priority a <= priority b) T /\
    (forall v, filter (fun p => priority p =? v) T
               = filter (fun p => priority p =? v) (skipn k L)).
Proof.
  intros L cpus HN k.
  destruct (sort_after_running_key priority compare_priority (fun _ _ => eq_refl)
              L cpus HN) as [T [Hs HT]].
  exists T. split; [|exact HT]. unfold prio_fcfs_no_preemption. rewrite Hs. reflexivity.
Qed.

Lemma prio_fcfs_no_preemption_prefix_sorted_tail_witness :
  NoDup (map id [mk_proc 1 5 9 8; mk_proc 2 4 7 7; mk_proc 3 0 2 2]) /\
  exists T, prio_fcfs_no_preemption [mk_proc 1 5 9 8; mk_proc 2 4 7 7; mk_proc 3 0 2 2] [1]
    = Ok ([mk_proc 1 5 9 8] ++ T, update_cpus_state ([mk_proc 1 5 9 8] ++ T) [1]) /\
    Permutation T [mk_proc 2 4 7 7; mk_proc 3 0 2 2].
Proof.
  assert (HN : NoDup (map id [mk_proc 1 5 9 8; mk_proc 2 4 7 7; mk_proc 3 0 2 2]))
    by (simpl; repeat constructor; simpl; lia).
  split; [exact HN|].
  destruct (prio_fcfs_no_preemption_prefix_sorted_tail _ [1] HN) as [T [Hs [Hp _]]].
  exists T. split; [exact Hs|exact Hp].
Defined.

(** X8. At the first tick the slot vector is zero-initialised, so the skip
    loop of SJF and non-preemptive Priority-FCFS takes every slot for
    process 0: with distinct ids, if some process has id 0 the first
    min(N, length) processes stay in place unsorted, whatever their
    execution time or priority; otherwise the whole list is sorted. *)
Theorem first_tick_zero_slots : forall L N, NoDup (map id L) ->
  let m := if existsb (fun p => id p =? 0) L then Nat.min N (length L) else 0%nat in
  (exists cpus', sjf L (repeat 0 N)
     = Ok (firstn m L ++ stable_sort compare_exec_time (skipn m L), cpus')) /\
  (exists cpus', prio_fcfs_no_preemption L (repeat 0 N)
     = Ok (firstn m L ++ stable_sort compare_priority (skipn m L), cpus')).
Proof.
  intros L N HN m. split; eexists.
  - unfold sjf. rewrite (sort_after_running_zero_slots compare_exec_time L N HN).
    reflexivity.
  - unfold prio_fcfs_no_preemption.
    rewrite (sort_after_running_zero_slots compare_priority L N HN). reflexivity.
Qed.

Lemma first_tick_zero_slots_witness :
  NoDup (map id [mk_proc 5 0 9 9; mk_proc 0 0 1 1]) /\
  exists cpus', sjf [mk_proc 5 0 9 9; mk_proc 0 0 1 1] (repeat 0 1)
    = Ok ([mk_proc 5 0 9 9; mk_proc 0 0 1 1], cpus').
Proof.
  assert (HN : NoDup (map id [mk_proc 5 0 9 9; mk_proc 0 0 1 1]))
    by (simpl; repeat constructor; simpl; lia).
  split; [exact HN|].
  destruct (first_tick_zero_slots _ 1 HN) as [[c Hs] _].
  exists c. exact Hs.
Defined.

(** ** Slot fill: occupancy *)

(** X9. With non-negative ids, the slot fill leaves exactly
    min(N, length of the ready list) slots occupied: no CPU is idle while
    a process waits. *)
Theorem update_cpus_state_busy : forall L cpus, Forall (fun p => 0 <= id p) L ->
  length (occupied (update_cpus_state L cpus)) = Nat.min (length cpus) (length L).
Proof.
  intros L cpus Hid.
  pose proof (Permutation_filter' (fun c => negb (c =? -1)) _ _
                (update_cpus_state_perm L cpus)) as P.
  unfold occupied. rewrite (Permutation_length P), filter_app.
  rewrite filter_all, filter_none.
  - rewrite app_nil_r, length_map, length_firstn. reflexivity.
  - intros x Hx. apply repeat_spec in Hx. subst. reflexivity.
  - intros x Hx. apply in_map_iff in Hx as [p [<- Hp]].
    apply In_firstn in Hp. rewrite Forall_forall in Hid. specialize (Hid p Hp).
    destruct (Z.eqb_spec (id p) (-1)); [lia|reflexivity].
Qed.

Lemma update_cpus_state_busy_witness :
  Forall (fun p => 0 <= id p) [mk_proc 3 0 1 1; mk_proc 1 0 1 1] /\
  length (occupied (update_cpus_state [mk_proc 3 0 1 1; mk_proc 1 0 1 1] [-1; -1; -1]))
    = 2%nat.
Proof.
  assert (H : Forall (fun p => 0 <= id p) [mk_proc 3 0 1 1; mk_proc 1 0 1 1])
    by (repeat constructor; simpl; lia).
  split; [exact H|].
  exact (update_cpus_state_busy _ [-1; -1; -1] H).
Defined.

(** ** The "update proc_list" loop *)

(** X10. With distinct ids, remaining times in [1, 2^32), distinct occupied
    slots (slots other than -1) and every occupied slot's id in the ready
    list, the loop never fails; the total remaining time drops by exactly
    the number of occupied slots, and the processes in no occupied slot are
    left unchanged and in order. *)
Theorem update_proc_list_accounting : forall cpus L,
  NoDup (map id L) -> Forall (fun p => 1 <= remaining_time p < UINT_MOD) L ->
  NoDup (occupied cpus) ->
  (forall c, In c cpus -> c <> -1 -> In c (map id L)) ->
  exists L', update_proc_list cpus L = Ok L' /\
    rem_sum (fun _ => true) L'
      = rem_sum (fun _ => true) L - Z.of_nat (length (occupied cpus)) /\
    filter (fun p => negb (existsb (Z.eqb (id p)) (occupied cpus))) L'
      = filter (fun p => negb (existsb (Z.eqb (id p)) (occupied cpus))) L.
Proof.
  intros cpus L HN Hok Hocc Hin.
  exists (flat_map (charge (occupied cpus)) L). split; [|split].
  - apply update_proc_list_charge; [exact HN|exact Hocc|].
    intros c Hc Hc1. destruct (proj1 (in_map_iff _ _ _) (Hin c Hc Hc1)) as [p [Hp1 Hp2]].
    exists p. auto.
  - rewrite rem_sum_charge by exact Hok.
    assert (E : length (filter (fun p => true && existsb (Z.eqb (id p)) (occupied cpus)) L)
                = length (occupied cpus)).
    { transitivity (length (filter (fun _ : Z => true) (occupied cpus))).
      - apply (filter_occ_length (fun _ => true)); [exact Hocc|exact HN|].
        intros c Hc. apply filter_In in Hc as [Hc Hc1].
        apply Hin; [exact Hc|]. destruct (Z.eqb_spec c (-1)); [discriminate|assumption].
      - rewrite filter_all; auto. }
    cbv beta. rewrite E. reflexivity.
  - apply filter_idle_charge.
Qed.

Lemma update_proc_list_accounting_witness :
  let L := [mk_proc 1 0 3 3; mk_proc 2 0 1 1; mk_proc 3 0 2 2] in
  NoDup (map id L) /\ Forall (fun p => 1 <= remaining_time p < UINT_MOD) L /\
  NoDup (occupied [2; 1]) /\
  (forall c, In c [2; 1] -> c <> -1 -> In c (map id L)) /\
  update_proc_list [2; 1] L = Ok [mk_proc 1 0 3 2; mk_proc 3 0 2 2].
Proof.
  intros L.
  assert (HN : NoDup (map id L)) by (simpl; repeat constructor; simpl; lia).
  assert (Hok : Forall (fun p => 1 <= remaining_time p < UINT_MOD) L)
    by (repeat constructor; unfold UINT_MOD; simpl; lia).
  assert (Hocc : NoDup (occupied [2; 1])) by (simpl; repeat constructor; simpl; lia).
  assert (Hin : forall c, In c [2; 1] -> c <> -1 -> In c (map id L))
    by (simpl; intros c Hc _; intuition).
  split; [exact HN|]. split; [exact Hok|]. split; [exact Hocc|]. split; [exact Hin|].
  destruct (update_proc_list_accounting _ _ HN Hok Hocc Hin) as [L' [HL' _]].
  rewrite HL'. f_equal.
  assert (Hc : update_proc_list [2; 1] L = Ok [mk_proc 1 0 3 2; mk_proc 3 0 2 2])
    by reflexivity.
  rewrite HL' in Hc. injection Hc as Hc. exact Hc.
Defined.

(** X11. Under the same assumptions, the loop's effect on each process: a
    process in no occupied slot stays in the list unchanged; a process in
    an occupied slot with remaining time 1 is erased (no process with its
    id is left); a process in an occupied slot with a larger remaining time
    stays with its remaining time decremented by one. *)
Theorem update_proc_list_effect : forall cpus L L' p,
  NoDup (map id L) -> Forall (fun p => 1 <= remaining_time p < UINT_MOD) L ->
  NoDup (occupied cpus) ->
  (forall c, In c cpus -> c <> -1 -> In c (map id L)) ->
  update_proc_list cpus L = Ok L' -> In p L ->
  (~ In (id p) (occupied cpus) -> In p L') /\
  (In (id p) (occupied cpus) -> remaining_time p = 1 -> ~ In (id p) (map id L')) /\
  (In (id p) (occupied cpus) -> 1 < remaining_time p ->
     In (set_remaining p (remaining_time p - 1)) L').
Proof.
  intros cpus L L' p HN Hok Hocc Hin HL Hp.
  rewrite update_proc_list_charge in HL; [|exact HN|exact Hocc|].
  2: { intros c Hc Hc1. destruct (proj1 (in_map_iff _ _ _) (Hin c Hc Hc1)) as [q [Hq1 Hq2]].
       exists q. auto. }
  injection HL as <-.
  assert (Hrem : 1 <= remaining_time p < UINT_MOD) by (rewrite Forall_forall in Hok; auto).
  assert (Hsub : forall q, In q (charge (occupied cpus) p) ->
                 In q (flat_map (charge (occupied cpus)) L))
    by (intros q Hq; apply in_flat_map; eauto).
  assert (Hexin : In (id p) (occupied cpus) -> existsb (Z.eqb (id p)) (occupied cpus) = true)
    by (intros H; apply existsb_exists; exists (id p); split; [exact H|apply Z.eqb_refl]).
  split; [|split].
  - intros Hn. apply Hsub. unfold charge.
    destruct (existsb (Z.eqb (id p)) (occupied cpus)) eqn:E; [|left; reflexivity].
    apply existsb_exists in E as [c [Hc Hc1]]. apply Z.eqb_eq in Hc1.
    subst. contradiction.
  - intros Hc H1 Hq. apply in_map_iff in Hq as [q [Hqid Hq]].
    apply in_flat_map in Hq as [p' [Hp' Hq]].
    pose proof (charge_id _ _ _ Hq) as Hid'.
    assert (p' = p) by (apply (NoDup_map_id_eq L); auto; congruence). subst p'.
    unfold charge in Hq. rewrite (Hexin Hc), H1 in Hq. simpl in Hq.
    exact Hq.
  - intros Hc H1. apply Hsub. unfold charge. rewrite (Hexin Hc).
    rewrite dec_uint_ok by lia.
    destruct (Z.eqb_spec (remaining_time p - 1) 0); [lia|]. left. reflexivity.
Qed.

Lemma update_proc_list_effect_witness :
  let L := [mk_proc 1 0 3 3; mk_proc 2 0 1 1; mk_proc 3 0 2 2] in
  NoDup (map id L) /\ Forall (fun p => 1 <= remaining_time p < UINT_MOD) L /\
  NoDup (occupied [2; 1]) /\
  (forall c, In c [2; 1] -> c <> -1 -> In c (map id L)) /\
  update_proc_list [2; 1] L = Ok [mk_proc 1 0 3 2; mk_proc 3 0 2 2] /\
  In (mk_proc 3 0 2 2) [mk_proc 1 0 3 2; mk_proc 3 0 2 2].
Proof.
  intros L.
  assert (HN : NoDup (map id L)) by (simpl; repeat constructor; simpl; lia).
  assert (Hok : Forall (fun p => 1 <= remaining_time p < UINT_MOD) L)
    by (repeat constructor; unfold UINT_MOD; simpl; lia).
  assert (Hocc : NoDup (occupied [2; 1])) by (simpl; repeat constructor; simpl; lia).
  assert (Hin : forall c, In c [2; 1] -> c <> -1 -> In c (map id L))
    by (simpl; intros c Hc _; intuition).
  assert (HL : update_proc_list [2; 1] L = Ok [mk_proc 1 0 3 2; mk_proc 3 0 2 2])
    by reflexivity.
  do 5 (split; [assumption|]).
  apply (update_proc_list_effect _ _ _ (mk_proc 3 0 2 2) HN Hok Hocc Hin HL).
  - simpl. auto.
  - simpl. intros [H|[H|[]]]; discriminate.
Defined.

(** X12. If an occupied slot holds an id that no process of the ready list
    has, the loop runs past the end of the list: undefined behaviour,
    whatever the other slots hold. *)
Theorem update_proc_list_missing : forall cpus L c,
  In c cpus -> c <> -1 -> ~ In c (map id L) ->
  update_proc_list cpus L = Err Undefined_behaviour.
Proof.
  induction cpus as [|c0 cs IH]; intros L c Hc Hn Hab; [destruct Hc|].
  simpl. destruct (Z.eqb_spec c0 (-1)) as [E|E].
  - destruct Hc as [<-|Hc]; [contradiction|]. exact (IH L c Hc Hn Hab).
  - destruct (split_at_id c0 L) as [[[pre p] post]|] eqn:Es; [|reflexivity].
    apply split_at_id_some in Es as (-> & Hid & _).
    assert (Hcs : In c cs).
    { destruct Hc as [<-|Hc]; [|exact Hc].
      exfalso. apply Hab. rewrite map_app. apply in_or_app. right.
      left. exact Hid. }
    destruct (_ =? 0); apply (IH _ c Hcs Hn); intro Hin; apply Hab;
      rewrite map_app in *; simpl in *.
    + apply in_app_or in Hin as [Hi|Hi]; apply in_or_app; [left|right; right]; exact Hi.
    + exact Hin.
Qed.

Lemma update_proc_list_missing_witness :
  In 7 [1; 7] /\ 7 <> -1 /\ ~ In 7 (map id [mk_proc 1 0 2 2]) /\
  update_proc_list [1; 7] [mk_proc 1 0 2 2] = Err Undefined_behaviour.
Proof.
  assert (H1 : In 7 [1; 7]) by (simpl; auto).
  assert (H2 : 7 <> -1) by lia.
  assert (H3 : ~ In 7 (map id [mk_proc 1 0 2 2])) by (simpl; intros [H|[]]; discriminate).
  split; [exact H1|]. split; [exact H2|]. split; [exact H3|].
  exact (update_proc_list_missing _ _ 7 H1 H2 H3).
Defined.

(** ** Round robin: the time slice *)

(** X13. With a time slice of 0, round robin never reorders the ready list:
    it either keeps it as it is or reaches the modulo by zero (undefined
    behaviour). *)
Theorem rr_zero_slice : forall L cpus,
  rr L cpus 0 = Ok (L, update_cpus_state L cpus) \/
  rr L cpus 0 = Err Undefined_behaviour.
Proof.
  intros L cpus. unfold rr.
  destruct (rr_loop_zero cpus L) as [E|E]; rewrite E; simpl; auto.
Qed.

(** X14. With a positive time slice, round robin never fails when every
    occupied slot holds the id of a process of the ready list, and it
    returns a permutation of the ready list. *)
Theorem rr_positive_slice_total : forall rr_time L cpus, 0 < rr_time ->
  (forall c, In c cpus -> c <> -1 -> In c (map id L)) ->
  exists L', rr L cpus rr_time = Ok (L', update_cpus_state L' cpus) /\ Permutation L' L.
Proof.
  intros r L cpus Hr Hin. destruct (rr_loop_ok r Hr cpus L Hin) as [L' E].
  exists L'. split; [unfold rr; rewrite E; reflexivity|].
  exact (rr_loop_perm _ _ _ _ E).
Qed.

Lemma rr_positive_slice_total_witness :
  0 < 2 /\
  (forall c, In c [1; 1] -> c <> -1 -> In c (map id [mk_proc 1 0 3 1; mk_proc 1 0 3 1])) /\
  exists L', rr [mk_proc 1 0 3 1; mk_proc 1 0 3 1] [1; 1] 2
    = Ok (L', update_cpus_state L' [1; 1]).
Proof.
  assert (H : 0 < 2) by lia.
  assert (Hin : forall c, In c [1; 1] -> c <> -1 ->
                  In c (map id [mk_proc 1 0 3 1; mk_proc 1 0 3 1]))
    by (intros c [<-|[<-|[]]] _; left; reflexivity).
  split; [exact H|]. split; [exact Hin|].
  destruct (rr_positive_slice_total _ [mk_proc 1 0 3 1; mk_proc 1 0 3 1] [1; 1] H Hin)
    as [L' [E _]].
  exists L'. exact E.
Defined.

(** ** The main loop *)

(** X15. With a method outside 0..6, the first iteration throws: the run
    fails before printing any line. *)
Theorem invalid_method_fails : forall fuel cfg st,
  ~ (0 <= method cfg <= 6) -> loop_cond st = true ->
  run (S fuel) cfg st = ([], Failed Invalid_method).
Proof.
  intros fuel cfg st Hm Hc. cbn [run]. rewrite Hc. unfold tick.
  destruct (read_input st) as [[[L0 t] rd] rest].
  assert (E : schedule (method cfg) (rr_time cfg) L0 (cpus_state st) = Err Invalid_method).
  { unfold schedule. destruct (method cfg) as [|p|p]; [lia| |reflexivity].
    repeat (destruct p as [p|p|]; try reflexivity); lia. }
  rewrite E. reflexivity.
Qed.

Lemma invalid_method_fails_witness :
  let cfg := mk_config 7 1 1 in
  ~ (0 <= method cfg <= 6) /\ loop_cond (init_state cfg [Some (0, [(1, 0, 2)])]) = true /\
  run 5 cfg (init_state cfg [Some (0, [(1, 0, 2)])]) = ([], Failed Invalid_method).
Proof.
  intros cfg.
  assert (Hm : ~ (0 <= method cfg <= 6)) by (simpl; lia).
  assert (Hc : loop_cond (init_state cfg [Some (0, [(1, 0, 2)])]) = true) by reflexivity.
  split; [exact Hm|]. split; [exact Hc|].
  exact (invalid_method_fails 4 cfg _ Hm Hc).
Defined.

(** X16. With no CPU, a valid method and an input of arrival lines without
    a blank line, the loop reads every line and stops: it prints one line
    per input line and one more, each with no slot, and ends with every
    process read still in the ready list, none executed. *)
Theorem no_cpus_run : forall cfg inp L t,
  0 <= method cfg <= 6 -> Forall (fun l => l <> None) inp ->
  exists recs st,
    (forall fuel, (S (length inp) <= fuel)%nat ->
       run fuel cfg (mk_state L [] t true inp) = (recs, Done st)) /\
    length recs = S (length inp) /\ Forall (fun r => snd r = []) recs /\
    Permutation (proc_list st) (L ++ pending inp) /\ cpus_state st = [].
Proof.
  intros cfg inp. induction inp as [|l rest IH]; intros L t Hm Hinp.
  - destruct (schedule_no_cpus (method cfg) (rr_time cfg) L Hm) as [L2 [Hs Hp]].
    exists [(t, [])], (mk_state L2 [] ((t + 1) mod UINT_MOD) false []).
    split; [|split; [reflexivity|split; [repeat constructor|split]]].
    + intros fuel Hf. destruct fuel as [|f]; [simpl in Hf; lia|].
      rewrite (run_tick f cfg _ (t, []) (mk_state L2 [] ((t + 1) mod UINT_MOD) false [])).
      * rewrite run_done by reflexivity. reflexivity.
      * reflexivity.
      * unfold tick, read_input. cbn [read input proc_list time cpus_state].
        rewrite Hs. reflexivity.
    + simpl. rewrite app_nil_r. exact Hp.
    + reflexivity.
  - inversion Hinp as [|? ? Hl Hrest]; subst.
    destruct l as [[t' tuples]|]; [|contradiction].
    destruct (schedule_no_cpus (method cfg) (rr_time cfg) (L ++ map read_proc tuples) Hm)
      as [L2 [Hs Hp]].
    destruct (IH L2 ((t' + 1) mod UINT_MOD) Hm Hrest)
      as [recs [st [Hrun [Hlen [Hnil [Hperm Hcs]]]]]].
    exists ((t', []) :: recs), st.
    split; [|split; [simpl; rewrite Hlen; reflexivity|split; [constructor; auto|split]]].
    + intros fuel Hf. destruct fuel as [|f]; [simpl in Hf; lia|].
      rewrite (run_tick f cfg _ (t', []) (mk_state L2 [] ((t' + 1) mod UINT_MOD) true rest)).
      * rewrite Hrun by (simpl in Hf; lia). reflexivity.
      * reflexivity.
      * unfold tick, read_input. cbn [read input proc_list time cpus_state].
        rewrite Hs. reflexivity.
    + rewrite Hperm. simpl. rewrite app_assoc.
      apply Permutation_app_tail. exact Hp.
    + exact Hcs.
Qed.

Lemma no_cpus_run_witness :
  let cfg := mk_config 1 0 1 in
  let inp := [Some (0, [(1, 0, 2)]); Some (3, [(2, 0, 1)])] in
  0 <= method cfg <= 6 /\ Forall (fun l => l <> None) inp /\
  exists recs st, run 3 cfg (init_state cfg inp) = (recs, Done st) /\
    Forall (fun r => snd r = []) recs.
Proof.
  intros cfg inp.
  assert (Hm : 0 <= method cfg <= 6) by (simpl; lia).
  assert (Hi : Forall (fun l => l <> None) inp) by (repeat constructor; discriminate).
  split; [exact Hm|]. split; [exact Hi|].
  destruct (no_cpus_run cfg inp [] 0 Hm Hi) as [recs [st [Hrun [_ [Hnil _]]]]].
  exists recs, st. split; [|exact Hnil]. apply Hrun. simpl. lia.
Defined.

(** X17. A blank line ends the reading as the end of the input does: the
    lines printed are the same as if the input stopped there, whatever
    follows the blank line. *)
Theorem blank_line_ends_input : forall fuel cfg L c t rest,
  fst (run fuel cfg (mk_state L c t true (None :: rest)))
  = fst (run fuel cfg (mk_state L c t true [])).
Proof.
  intros [|f] cfg L c t rest; [reflexivity|].
  cbn [run]. unfold loop_cond. cbn [read cpus_state orb].
  unfold tick, read_input. cbn [read input proc_list time cpus_state].
  destruct (schedule (method cfg) (rr_time cfg) L c) as [[L1 cpus]|e]; [|reflexivity].
  destruct (update_proc_list cpus L1) as [L2|e]; [|reflexivity].
  pose proof (run_no_read_input f cfg L2 cpus ((t + 1) mod UINT_MOD) rest []) as H.
  destruct (run f cfg (mk_state L2 cpus ((t + 1) mod UINT_MOD) false rest)) as [rs1 o1].
  destruct (run f cfg (mk_state L2 cpus ((t + 1) mod UINT_MOD) false [])) as [rs2 o2].
  simpl in *. congruence.
Qed.
